(** * go-http-helpers, package [query]: a shallow embedding and its properties

    The package reads typed values out of the query string of an
    [*http.Request].  Every exported function starts with
    [r.URL.Query()], which parses the raw query string again and hands
    back a new [url.Values] map, and then reads that map.

    Go's maps and slices are references.  To keep what [All] shares and
    what it does not share visible, the embedding runs over a small
    heap of map objects and backing arrays, and a run can end in a
    panic (an index out of range, a store through an invalid map).  The
    functions of the package are written in that monad, one definition
    per Go function, and the theorems say what a run returns from an
    arbitrary heap. *)

From Stdlib Require Import ZArith Lia PrimFloat Ascii String.
From Stdlib Require Uint63.
From Stdlib Require Import QArith Qabs Qpower.
From Stdlib Require SpecFloat FloatOps.
From stdpp Require Import base option list strings gmap.

Local Open Scope string_scope.
Local Open Scope Z_scope.

(** ** Values of the Go types *)

(** Zero value of a type: what [make([]T, n)] fills a slice with. *)
Class GoZero (T : Type) : Type := zero : T.

#[global] Instance int_zero : GoZero Z := 0.
#[global] Instance bool_zero : GoZero bool := false.
#[global] Instance string_zero : GoZero string := "".
#[global] Instance float64_zero : GoZero float := 0%float.

(** [int] is 32 or 64 bits wide, by platform ([strconv.IntSize]). *)
Inductive Arch : Set := Arch32 | Arch64.

Definition IntSize (a : Arch) : Z :=
  match a with Arch32 => 32 | Arch64 => 64 end.

(** Conversion to an unsigned and to a signed integer of [bits] bits. *)
Definition to_uint (bits x : Z) : Z := x mod 2 ^ bits.

Definition to_int (bits x : Z) : Z :=
  let y := x mod 2 ^ bits in
  if y <? 2 ^ (bits - 1) then y else y - 2 ^ bits.

Definition byte_val (c : ascii) : Z := Z.of_N (Ascii.N_of_ascii c).

(** ** The heap *)

Definition loc := positive.

(** Where a slice points: nowhere (the nil slice), at the base of
    zero-sized allocations (a literal [[]string{}]), or at the backing
    array that the parse with stamp [arena] built for [key]. *)
Inductive pointer : Set :=
  | NilPtr
  | ZeroBase
  | Array (arena : loc) (key : string).

(** A [[]string] header. *)
Record slice : Set := MkSlice { base : pointer; len : nat }.

Definition nil_slice : slice := MkSlice NilPtr 0.
Definition empty_slice : slice := MkSlice ZeroBase 0.

Definition is_nil (s : slice) : bool :=
  match base s with NilPtr => true | _ => false end.

(** The multi-map of a query string, by content. *)
Abbreviation Values := (gmap string (list string)).

Record heap : Type := Heap {
  arenas : gmap loc Values;
  maps : gmap loc (gmap string slice);
  next : loc
}.

Inductive outcome (A : Type) : Type :=
  | Ok (a : A) (h : heap)
  | Panic (msg : string).
Arguments Ok {A} a h.
Arguments Panic {A} msg.

Definition Go (A : Type) : Type := heap → outcome A.

#[global] Instance Go_ret : MRet Go := λ A a h, Ok a h.

#[global] Instance Go_bind : MBind Go := λ A B k c h,
  match c h with
  | Ok a h' => k a h'
  | Panic msg => Panic msg
  end.

Definition panic {A : Type} (msg : string) : Go A := λ _, Panic msg.

(** What a finished run returned, without the heap. *)
Definition result {A : Type} (o : outcome A) : option A :=
  match o with Ok a _ => Some a | Panic _ => None end.

(** *** Reading the heap *)

(** The elements of a [[]string], read through its header. *)
Definition slice_elems (h : heap) (s : slice) : option (list string) :=
  match base s with
  | Array a k =>
      vs ← arenas h !! a ≫= (.!! k);
      if decide (len s ≤ length vs)%nat then Some (take (len s) vs) else None
  | _ => if decide (len s = 0%nat) then Some [] else None
  end.

(** The content of a [map[string][]string]: every key with the
    elements of its slice. *)
Definition map_content (h : heap) (m : loc) : option Values :=
  match maps h !! m with
  | Some gm =>
      if decide (map_Forall (λ _ s, is_Some (slice_elems h s)) gm)
      then Some (omap (slice_elems h) gm) else None
  | None => None
  end.

(** ** Primitives of the language and of net/url *)

(** [v, ok := m[key]]: the zero value, a nil slice, for a missing key. *)
Definition map_index (m : loc) (key : string) : Go (slice * bool) := λ h,
  match maps h !! m with
  | Some gm =>
      match gm !! key with
      | Some s => Ok (s, true) h
      | None => Ok (nil_slice, false) h
      end
  | None => Panic "invalid map"
  end.

(** [make(map[string][]string, n)]. *)
Definition map_make : Go loc := λ h,
  Ok (next h)
     {| arenas := arenas h;
        maps := <[next h := ∅]> (maps h);
        next := Pos.succ (next h) |}.

(** [m[k] = v]. *)
Definition map_store (m : loc) (k : string) (v : slice) : Go () := λ h,
  match maps h !! m with
  | Some gm =>
      Ok () {| arenas := arenas h;
               maps := <[m := <[k := v]> gm]> (maps h);
               next := next h |}
  | None => Panic "assignment to entry in invalid map"
  end.

(** The entries that [for k, v := range m] visits.  The language
    leaves their order open; the loop of [All] stores under distinct
    keys, and the order does not show in what it builds
    ([store_loop_order]). *)
Definition map_range (m : loc) : Go (list (string * slice)) := λ h,
  match maps h !! m with
  | Some gm => Ok (map_to_list gm) h
  | None => Panic "invalid map"
  end.

(** [s[i]], with the bounds check of the language. *)
Definition slice_at (s : slice) (i : nat) : Go string := λ h,
  if decide (i < len s)%nat then
    match slice_elems h s ≫= (.!! i) with
    | Some v => Ok v h
    | None => Panic "invalid memory address"
    end
  else Panic "index out of range".

(** The values that [for i, val := range s] visits, in order. *)
Definition slice_range (s : slice) : Go (list string) := λ h,
  match slice_elems h s with
  | Some vs => Ok vs h
  | None => Panic "invalid memory address"
  end.

(** [s[i] = v]: a store into the backing array, seen through every
    header that points at it. *)
Definition slice_store (s : slice) (i : nat) (v : string) : Go () := λ h,
  if decide (i < len s)%nat then
    match base s with
    | Array a k =>
        match arenas h !! a with
        | Some arena =>
            match arena !! k with
            | Some vs =>
                Ok () {| arenas := <[a := <[k := <[i := v]> vs]> arena]>
                                     (arenas h);
                         maps := maps h;
                         next := next h |}
            | None => Panic "invalid memory address"
            end
        | None => Panic "invalid memory address"
        end
    | _ => Panic "invalid memory address"
    end
  else Panic "index out of range".

(** [xs[i]] and [xs[i] = x] on a slice the function itself made; both
    check the index. *)
Definition index {T : Type} (xs : list T) (i : nat) : Go T :=
  match xs !! i with
  | Some x => mret x
  | None => panic "index out of range"
  end.

Definition store {T : Type} (xs : list T) (i : nat) (x : T) : Go (list T) :=
  if decide (i < length xs)%nat then mret (<[i := x]> xs)
  else panic "index out of range".

(** A [for] loop over the pairs of a list, threading the loop state. *)
Fixpoint for_each {A S : Type} (body : S → A → Go S) (xs : list A) (s : S)
  : Go S :=
  match xs with
  | [] => mret s
  | x :: xs' => s' ← body s x; for_each body xs' s'
  end.

(** The request, as far as the package reads it: the parameters of
    [r.URL.RawQuery], percent-decoded, in the order they appear. *)
Record Request : Type := { params : list (string * string) }.

(** Modelled from the spec: [url.ParseQuery] belongs to Go's standard
    library and is not among the sources.  Spec 3: the multi-map takes
    a parameter name to the ordered sequence of its raw values as they
    appeared in the query string.  On decoded parameters the library
    appends the value of every parameter to the values of its key. *)
Definition ParseQuery (ps : list (string * string)) : Values :=
  foldl (λ (m : Values) kv,
           <[kv.1 := (default [] (m !! kv.1) ++ [kv.2])%list]> m) ∅ ps.

(** The multi-map of the request.  The raw query never changes, so
    every parse computes this map. *)
Definition values_of (r : Request) : Values := ParseQuery (params r).

(** The header of the slice that the parse with stamp [n] stores
    under [key]. *)
Definition header (n : loc) (key : string) (vs : list string) : slice :=
  MkSlice (Array n key) (length vs).

(** The heap after a parse of the request's query: one new map
    object over new backing arrays. *)
Definition with_parse (r : Request) (h : heap) : heap :=
  {| arenas := <[next h := values_of r]> (arenas h);
     maps := <[next h := map_imap (λ k vs, Some (header (next h) k vs))
                                  (values_of r)]> (maps h);
     next := Pos.succ (next h) |}.

(** Modelled from the spec: [URL.Query] belongs to Go's standard
    library.  Spec 5 and the performance note of doc.go: the query
    string is parsed again at every call, so every call hands back a
    new map over new backing arrays. *)
Definition URL_Query (r : Request) : Go loc := λ h,
  Ok (next h) (with_parse r h).

(** Modelled from the spec: [url.Values.Get] belongs to Go's standard
    library.  Spec 4.1: the first occurrence of the key; the library
    returns the empty string when the key has no value. *)
Definition Values_Get (v : loc) (key : string) : Go string :=
  '(vs, _) ← map_index v key;
  if decide (len vs = 0%nat) then mret "" else slice_at vs 0.

(** ** Package strconv, as the package uses it *)

Module strconv.

(** The errors a conversion reports ([NumError.Err]). *)
Inductive error : Set := ErrSyntax | ErrRange | ErrBitSize.

(** A conversion returns a value and an error; the error is [nil]
    ([None]) when the conversion succeeded. *)
Definition Parser (T : Type) : Type := string → T * option error.

Definition failed {T : Type} (res : T * option error) : bool :=
  match res.2 with Some _ => true | None => false end.

Definition maxUint64 : Z := 2 ^ 64 - 1.

Definition is_digit (c : ascii) : bool :=
  (48 <=? byte_val c) && (byte_val c <=? 57).

(** Modelled from the spec: strconv.ParseUint, ParseInt and Atoi belong
    to Go's standard library and are not among the sources; spec 4.1
    fixes their behaviour: base-10 literal rules with an optional sign,
    and failure on overflow of the fixed-width type.  The model is
    written the way the library computes: [uint64] arithmetic that wraps
    around, with the library's cut-offs in front of it.

    [ParseUint_digits] is the digit loop of [ParseUint] in base 10: [n]
    is the value read so far, [maxVal] the largest value of the target
    width.  A byte that is no decimal digit is a syntax error. *)
Fixpoint ParseUint_digits (maxVal : Z) (s : string) (n : Z)
  : Z * option error :=
  match s with
  | EmptyString => (n, None)
  | String.String c s' =>
      if is_digit c then
        let d := byte_val c - 48 in
        if maxUint64 / 10 + 1 <=? n then (maxVal, Some ErrRange)
        else
          let n10 := to_uint 64 (n * 10) in
          let n1 := to_uint 64 (n10 + d) in
          if (n1 <? n10) || (maxVal <? n1) then (maxVal, Some ErrRange)
          else ParseUint_digits maxVal s' n1
      else (0, Some ErrSyntax)
  end.

(** Modelled from the spec: strconv.ParseUint(s, 10, bitSize), see
    [ParseUint_digits]. *)
Definition ParseUint (a : Arch) (s : string) (bitSize : Z)
  : Z * option error :=
  if decide (s = "") then (0, Some ErrSyntax)
  else if (bitSize <? 0) || (64 <? bitSize) then (0, Some ErrBitSize)
  else
    let bitSize := if bitSize =? 0 then IntSize a else bitSize in
    let maxVal := to_uint 64 (to_uint 64 (2 ^ bitSize) - 1) in
    ParseUint_digits maxVal s 0.

(** Modelled from the spec: strconv.ParseInt(s, 10, bitSize), see
    [ParseUint_digits].  The sign is picked off, the rest is read as
    an unsigned number and checked against the range of the width. *)
Definition ParseInt (a : Arch) (s : string) (bitSize : Z)
  : Z * option error :=
  match s with
  | EmptyString => (0, Some ErrSyntax)
  | String.String c s' =>
      let neg := bool_decide (c = "-"%char) in
      let s1 := if bool_decide (c = "+"%char) || neg then s' else s in
      let '(un, err) := ParseUint a s1 bitSize in
      match err with
      | Some ErrSyntax | Some ErrBitSize => (0, err)
      | _ =>
          let bitSize := if bitSize =? 0 then IntSize a else bitSize in
          let cutoff := to_uint 64 (2 ^ (bitSize - 1)) in
          if negb neg && (cutoff <=? un) then
            (to_int 64 (cutoff - 1), Some ErrRange)
          else if neg && (cutoff <? un) then
            (to_int 64 (- to_int 64 cutoff), Some ErrRange)
          else
            let n := to_int 64 un in
            (if neg then to_int 64 (- n) else n, None)
      end
  end.

(** Modelled from the spec: the digit loop of the short path of
    strconv.Atoi, in [int] arithmetic; see [ParseUint_digits]. *)
Fixpoint Atoi_digits (a : Arch) (s : string) (n : Z) : option Z :=
  match s with
  | EmptyString => Some n
  | String.String c s' =>
      let ch := to_uint 8 (byte_val c - 48) in
      if 9 <? ch then None
      else Atoi_digits a s' (to_int (IntSize a) (n * 10 + ch))
  end.

(** Modelled from the spec: strconv.Atoi, see [ParseUint_digits].
    Strings short enough to fit an [int] for certain take the short
    path; all others go through [ParseInt] with the width of [int]. *)
Definition Atoi (a : Arch) (s : string) : Z * option error :=
  let sLen := Z.of_nat (String.length s) in
  if (0 <? sLen) && (sLen <? match a with Arch32 => 10 | Arch64 => 19 end)
  then
    match s with
    | EmptyString => (0, Some ErrSyntax)
    | String.String c s' =>
        let signed :=
          bool_decide (c = "-"%char) || bool_decide (c = "+"%char) in
        let s1 := if signed then s' else s in
        if signed && (Z.of_nat (String.length s1) <? 1)
        then (0, Some ErrSyntax)
        else
          match Atoi_digits a s1 0 with
          | None => (0, Some ErrSyntax)
          | Some n =>
              (if bool_decide (c = "-"%char) then to_int (IntSize a) (- n)
               else n, None)
          end
    end
  else
    let '(i64, err) := ParseInt a s 0 in
    (to_int (IntSize a) i64, err).

(** ** strconv.ParseFloat *)

(** Modelled from the spec: strconv.ParseFloat(s, 64) belongs to Go's
    standard library and is not among the sources.  Spec 4.1 fixes its
    behaviour on decimal numerals: an optional sign, digits with an
    optional fractional part, an optional exponent; the value is the
    float64 nearest to the numeral, and a numeral beyond the range of
    float64 is a failure.  The model is written the way the library
    reads a string ([special], [readFloat], [underscoreOK]), so it
    admits what the library admits besides: underscores between digits,
    hexadecimal numerals with a binary exponent, infinities and NaN.

    The conversion of the digits to the nearest float64 stands for the
    library's algorithms (exact arithmetic where the digits allow it,
    Eisel-Lemire, multi-precision decimals), which all return the
    nearest float64 with ties going to the even mantissa: [round64]
    computes that float64 from the exact value.  Two shortcuts of the
    library are left out.  The library keeps 19 digits in a [uint64]
    and returns to the text when they do not settle the rounding; the
    model keeps all digits.  The library stops adding up the exponent
    once it has passed 10000; the model reads every exponent as
    written, as spec 4.1 has it, and so differs from the library on
    numerals whose exponent has six or more digits next to some ten
    thousand digits. *)

(** Go's [lower]: the byte with bit 5 set, which turns an ASCII capital
    into its small letter. *)
Definition lower (c : ascii) : Z := Z.lor (byte_val c) 32.

(** The integer nearest to [a / b], the even one of two equally near. *)
Definition round_even (a b : Z) : Z :=
  let q := a / b in
  let r := a mod b in
  if 2 * r <? b then q
  else if b <? 2 * r then q + 1
  else if Z.even q then q else q + 1.

(** The float64 nearest to [A / D], for [A / D] counted in units of
    [2 ^ -1074], the least positive float64: a mantissa [m] below
    [2 ^ 53] and a shift [s], standing for [m * 2 ^ s] units.  The
    shift leaves 53 bits in front of the binary point. *)
Definition round_grid (A D : Z) : Z * Z :=
  let s := Z.max (Z.log2 (A / D) - 52) 0 in
  let m := round_even A (D * 2 ^ s) in
  if m =? 2 ^ 53 then (2 ^ 52, s + 1) else (m, s).

(** [M * b ^ k] as a fraction of integers. *)
Definition fraction (M b k : Z) : Z * Z :=
  if 0 <=? k then (M * b ^ k, 1) else (M, b ^ (- k)).

(** The float64 nearest to [M * b ^ k]: its mantissa and exponent, or
    [None] when the value is beyond the range.  The two tests in front
    settle without computing a power the values of at least
    [2 ^ 1024] and those below [2 ^ -1075]. *)
Definition round64 (M b k : Z) : option (Z * Z) :=
  if M =? 0 then Some (0, -1074)
  else if 1024 <=? k * Z.log2 b then None
  else if Z.log2 M + 1 + k * Z.log2 b <=? -1075 then Some (0, -1074)
  else
    let '(N, D) := fraction M b k in
    let '(m, s) := round_grid (N * 2 ^ 1074) D in
    if 2045 <? s then None else Some (m, s - 1074).

(** The float64 of sign [neg], mantissa [m] and exponent [e]: plus or
    minus [m * 2 ^ e]. *)
Definition float64 (neg : bool) (m e : Z) : float :=
  FloatOps.SF2Prim
    (if m =? 0 then SpecFloat.S754_zero neg
     else SpecFloat.S754_finite neg (Z.to_pos m) e).

Definition fold_case (c : ascii) : Z :=
  if (65 <=? byte_val c) && (byte_val c <=? 90) then byte_val c + 32
  else byte_val c.

Fixpoint commonPrefixLenIgnoreCase (s prefix : string) : Z :=
  match s, prefix with
  | String.String c s', String.String p prefix' =>
      if fold_case c =? byte_val p
      then 1 + commonPrefixLenIgnoreCase s' prefix'
      else 0
  | _, _ => 0
  end.

(** [special]: the infinities and NaN, with the number of bytes read. *)
Definition special (s : string) : option (float * Z) :=
  match s with
  | EmptyString => None
  | String.String c s' =>
      let signed :=
        bool_decide (c = "+"%char) || bool_decide (c = "-"%char) in
      if signed || bool_decide (c = "i"%char) || bool_decide (c = "I"%char)
      then
        let rest := if signed then s' else s in
        let nsign := if signed then 1 else 0 in
        let n := commonPrefixLenIgnoreCase rest "infinity" in
        let n := if (3 <? n) && (n <? 8) then 3 else n in
        if (n =? 3) || (n =? 8)
        then Some (if bool_decide (c = "-"%char) then neg_infinity
                   else infinity, nsign + n)
        else None
      else if bool_decide (c = "n"%char) || bool_decide (c = "N"%char) then
        if commonPrefixLenIgnoreCase s "nan" =? 3 then Some (nan, 3)
        else None
      else None
  end.

(** The variables of the digit loop of [readFloat]: the digits read so
    far as a number, their count without the leading zeros, the place
    of the decimal point, and what the loop has seen. *)
Record floatScan : Set := FloatScan {
  mantissa : Z; nd : Z; dp : Z;
  sawdot : bool; sawdigits : bool; underscores : bool }.

Definition is_hex_letter (c : ascii) : bool :=
  (97 <=? lower c) && (lower c <=? 102).

(** The digit loop of [readFloat] in base [b]; it stops at the first
    byte that is no part of the digits and hands back the rest. *)
Fixpoint readFloat_digits (b : Z) (s : string) (st : floatScan)
  : floatScan * string :=
  match s with
  | EmptyString => (st, s)
  | String.String c s' =>
      if bool_decide (c = "_"%char) then
        readFloat_digits b s'
          (FloatScan (mantissa st) (nd st) (dp st) (sawdot st)
                     (sawdigits st) true)
      else if bool_decide (c = "."%char) then
        if sawdot st then (st, s)
        else readFloat_digits b s'
               (FloatScan (mantissa st) (nd st) (nd st) true
                          (sawdigits st) (underscores st))
      else if is_digit c then
        if bool_decide (c = "0"%char) && (nd st =? 0) then
          readFloat_digits b s'
            (FloatScan (mantissa st) (nd st) (dp st - 1) (sawdot st)
                       true (underscores st))
        else
          readFloat_digits b s'
            (FloatScan (mantissa st * b + (byte_val c - 48)) (nd st + 1)
                       (dp st) (sawdot st) true (underscores st))
      else if (b =? 16) && is_hex_letter c then
        readFloat_digits b s'
          (FloatScan (mantissa st * 16 + (lower c - 97 + 10)) (nd st + 1)
                     (dp st) (sawdot st) true (underscores st))
      else (st, s)
  end.

(** The loop over the digits of the exponent. *)
Fixpoint readFloat_exponent (s : string) (e : Z) (us : bool)
  : Z * bool * string :=
  match s with
  | EmptyString => (e, us, s)
  | String.String c s' =>
      if bool_decide (c = "_"%char) then readFloat_exponent s' e true
      else if is_digit c
      then readFloat_exponent s' (e * 10 + (byte_val c - 48)) us
      else (e, us, s)
  end.

(** [underscoreOK]: an underscore stands between two digits, or
    between a base prefix and a digit; [saw] is the kind of the last
    byte. *)
Fixpoint underscoreOK_from (hex : bool) (s : string) (saw : ascii) : bool :=
  match s with
  | EmptyString => negb (bool_decide (saw = "_"%char))
  | String.String c s' =>
      if is_digit c || (hex && is_hex_letter c)
      then underscoreOK_from hex s' "0"%char
      else if bool_decide (c = "_"%char) then
        if bool_decide (saw = "0"%char)
        then underscoreOK_from hex s' "_"%char
        else false
      else if bool_decide (saw = "_"%char) then false
      else underscoreOK_from hex s' "!"%char
  end.

Definition underscoreOK (s : string) : bool :=
  let s :=
    match s with
    | String.String c s' =>
        if bool_decide (c = "-"%char) || bool_decide (c = "+"%char)
        then s' else s
    | EmptyString => s
    end in
  match s with
  | String.String c0 (String.String c1 s') =>
      if bool_decide (c0 = "0"%char)
         && bool_decide (lower c1 ∈ [98; 111; 120])
      then underscoreOK_from (lower c1 =? 120) s' "0"%char
      else underscoreOK_from false s "^"%char
  | _ => underscoreOK_from false s "^"%char
  end.

(** [readFloat] after the sign: [s] is the whole string, [s1] what
    follows the sign.  The result is the mantissa, the exponent of the
    base (10, or 2 for a hexadecimal numeral), the sign, whether the
    numeral is hexadecimal, and the bytes left over. *)
Definition readFloat_number (s : string) (neg : bool) (s1 : string)
  : option (Z * Z * bool * bool * string) :=
  let hex :=
    match s1 with
    | String.String c0 (String.String c1 (String.String _ _)) =>
        bool_decide (c0 = "0"%char) && (lower c1 =? 120)
    | _ => false
    end in
  let b := if hex then 16 else 10 in
  let expChar := if hex then 112 else 101 in
  let s2 := if hex then String.substring 2 (String.length s1) s1 else s1 in
  let '(st, s3) :=
    readFloat_digits b s2 (FloatScan 0 0 0 false false false) in
  if negb (sawdigits st) then None
  else
    let dp0 := if sawdot st then dp st else nd st in
    let dp0 := if hex then dp0 * 4 else dp0 in
    let ndMant := if hex then nd st * 4 else nd st in
    let finish (dp1 : Z) (us : bool) (rest : string) :=
      let exp := if mantissa st =? 0 then 0 else dp1 - ndMant in
      let n := (String.length s - String.length rest)%nat in
      if us && negb (underscoreOK (String.substring 0 n s)) then None
      else Some (mantissa st, exp, neg, hex, rest) in
    match s3 with
    | String.String c3 s4 =>
        if lower c3 =? expChar then
          match s4 with
          | EmptyString => None
          | String.String c4 s5 =>
              let plus := bool_decide (c4 = "+"%char) in
              let minus := bool_decide (c4 = "-"%char) in
              let esign := if minus then -1 else 1 in
              let s6 := if plus || minus then s5 else s4 in
              match s6 with
              | EmptyString => None
              | String.String c6 _ =>
                  if is_digit c6 then
                    let '(e, us, s7) :=
                      readFloat_exponent s6 0 (underscores st) in
                    finish (dp0 + e * esign) us s7
                  else None
              end
          end
        else if hex then None
        else finish dp0 (underscores st) s3
    | EmptyString =>
        if hex then None else finish dp0 (underscores st) s3
    end.

Definition readFloat (s : string) : option (Z * Z * bool * bool * string) :=
  match s with
  | EmptyString => None
  | String.String c s' =>
      let neg := bool_decide (c = "-"%char) in
      readFloat_number s neg
        (if bool_decide (c = "+"%char) || neg then s' else s)
  end.

(** Modelled from the spec: strconv.ParseFloat(s, 64), see above.  The
    whole string has to be read; a value beyond the range comes back as
    an infinity with [ErrRange]. *)
Definition ParseFloat (s : string) : float * option error :=
  match special s with
  | Some (f, n) =>
      if n =? Z.of_nat (String.length s) then (f, None)
      else (0%float, Some ErrSyntax)
  | None =>
      match readFloat s with
      | None => (0%float, Some ErrSyntax)
      | Some (mant, exp, neg, hex, rest) =>
          if negb (bool_decide (rest = "")) then (0%float, Some ErrSyntax)
          else
            match round64 mant (if hex then 2 else 10) exp with
            | Some (m, e) => (float64 neg m e, None)
            | None =>
                (if neg then neg_infinity else infinity, Some ErrRange)
            end
      end
  end.

End strconv.


(** ** Package query *)

Module query.
Import strconv.

Section Package.

(** The platform, and the functions of the standard library whose
    results the package passes on as they are: [strings.TrimSpace],
    [strings.ToLower] (both work on Unicode text) and
    [strconv.ParseFloat(s, 64)]. *)
Variable arch : Arch.
Variables TrimSpace ToLower : string → string.
Variable ParseFloat : Parser float.

Definition String (r : Request) (key : string) (defaultValue : string)
  : Go string :=
  vals ← URL_Query r;
  val ← Values_Get vals key;
  if decide (val = "") then mret defaultValue
  else mret val.

Definition Int (r : Request) (key : string) (defaultValue : Z) : Go Z :=
  vals ← URL_Query r;
  val ← Values_Get vals key;
  if decide (val = "") then mret defaultValue
  else
    let '(parsed, err) := Atoi arch val in
    if err is Some _ then mret defaultValue
    else mret parsed.

Definition Int64 (r : Request) (key : string) (defaultValue : Z) : Go Z :=
  vals ← URL_Query r;
  val ← Values_Get vals key;
  if decide (val = "") then mret defaultValue
  else
    let '(parsed, err) := ParseInt arch val 64 in
    if err is Some _ then mret defaultValue
    else mret parsed.

Definition Float64 (r : Request) (key : string) (defaultValue : float)
  : Go float :=
  vals ← URL_Query r;
  val ← Values_Get vals key;
  if decide (val = "") then mret defaultValue
  else
    let '(parsed, err) := ParseFloat val in
    if err is Some _ then mret defaultValue
    else mret parsed.

Definition parseBool (s : string) : bool * option error :=
  let lower := ToLower (TrimSpace s) in
  if bool_decide (lower ∈ ["true"; "1"; "yes"; "on"; "y"]) then (true, None)
  else if bool_decide (lower ∈ ["false"; "0"; "no"; "off"; "n"])
  then (false, None)
  else (false, Some ErrSyntax).

Definition Bool (r : Request) (key : string) (defaultValue : bool)
  : Go bool :=
  vals ← URL_Query r;
  val ← Values_Get vals key;
  if decide (val = "") then mret defaultValue
  else
    let '(parsed, err) := parseBool val in
    if err is Some _ then mret defaultValue
    else mret parsed.

Definition Strings (r : Request) (key : string) : Go slice :=
  m ← URL_Query r;
  '(vals, _) ← map_index m key;
  if is_nil vals then mret empty_slice
  else mret vals.

(** [result] is the slice that [make] returns, filled with zero
    values; the loop stores into it by index. *)
Definition Slice {T : Type} `{GoZero T} (r : Request) (key : string)
    (defaultValue : T) (parser : Parser T) : Go (list T) :=
  m ← URL_Query r;
  '(vals, _) ← map_index m key;
  if decide (len vals = 0%nat) then mret []
  else
    elems ← slice_range vals;
    for_each
      (λ result '(i, val),
         let '(parsed, err) := parser val in
         if err is Some _ then store result i defaultValue
         else store result i parsed)
      (imap pair elems)
      (replicate (len vals) zero).

Definition Ints (r : Request) (key : string) (defaultValue : Z)
  : Go (list Z) :=
  Slice r key defaultValue (Atoi arch).

Definition Int64s (r : Request) (key : string) (defaultValue : Z)
  : Go (list Z) :=
  Slice r key defaultValue (λ s, ParseInt arch s 64).

Definition Float64s (r : Request) (key : string) (defaultValue : float)
  : Go (list float) :=
  Slice r key defaultValue (λ s, ParseFloat s).

Definition Bools (r : Request) (key : string) (defaultValue : bool)
  : Go (list bool) :=
  Slice r key defaultValue parseBool.

Definition Has (r : Request) (key : string) : Go bool :=
  m ← URL_Query r;
  '(_, exists_) ← map_index m key;
  mret exists_.

Definition Count (r : Request) (key : string) : Go Z :=
  m ← URL_Query r;
  '(vals, _) ← map_index m key;
  mret (Z.of_nat (len vals)).

Definition IsMultiple (r : Request) (key : string) : Go bool :=
  m ← URL_Query r;
  '(vals, _) ← map_index m key;
  mret (bool_decide (1 < Z.of_nat (len vals))).

Definition First {T : Type} (slice : list T) (defaultValue : T) : Go T :=
  if decide (length slice = 0%nat) then mret defaultValue
  else index slice 0.

(** The size hint of [make] does not show in the result. *)
Definition All (r : Request) : Go loc :=
  values ← URL_Query r;
  result ← map_make;
  entries ← map_range values;
  for_each (λ _ '(k, v), map_store result k v) entries ();;
  mret result.

End Package.
End query.

(** ** Package headers *)

Module headers.

(** The header names, in the order of the [const] block. *)

(** Authentication *)
Definition Authorization : string := "Authorization".
Definition ProxyAuthorization : string := "Proxy-Authorization".
Definition WWWAuthenticate : string := "WWW-Authenticate".
Definition ProxyAuthenticate : string := "Proxy-Authenticate".

(** Caching *)
Definition Age : string := "Age".
Definition CacheControl : string := "Cache-Control".
Definition ClearSiteData : string := "Clear-Site-Data".
Definition Expires : string := "Expires".
Definition NoVarySearch : string := "No-Vary-Search".

(** Conditionals *)
Definition ETag : string := "ETag".
Definition IfMatch : string := "If-Match".
Definition IfNoneMatch : string := "If-None-Match".
Definition IfModifiedSince : string := "If-Modified-Since".
Definition IfUnmodifiedSince : string := "If-Unmodified-Since".
Definition LastModified : string := "Last-Modified".
Definition Vary : string := "Vary".

(** Connection Management *)
Definition Connection : string := "Connection".
Definition KeepAlive : string := "Keep-Alive".

(** Content Negotiation *)
Definition Accept : string := "Accept".
Definition AcceptEncoding : string := "Accept-Encoding".
Definition AcceptLanguage : string := "Accept-Language".
Definition AcceptPatch : string := "Accept-Patch".
Definition AcceptPost : string := "Accept-Post".

(** Controls *)
Definition Expect : string := "Expect".
Definition MaxForwards : string := "Max-Forwards".

(** Cookies *)
Definition Cookie : string := "Cookie".
Definition SetCookie : string := "Set-Cookie".

(** CORS *)
Definition AccessControlAllowCredentials : string :=
  "Access-Control-Allow-Credentials".
Definition AccessControlAllowHeaders : string := "Access-Control-Allow-Headers".
Definition AccessControlAllowMethods : string := "Access-Control-Allow-Methods".
Definition AccessControlAllowOrigin : string := "Access-Control-Allow-Origin".
Definition AccessControlExposeHeaders : string :=
  "Access-Control-Expose-Headers".
Definition AccessControlMaxAge : string := "Access-Control-Max-Age".
Definition AccessControlRequestHeaders : string :=
  "Access-Control-Request-Headers".
Definition AccessControlRequestMethod : string :=
  "Access-Control-Request-Method".
Definition Origin : string := "Origin".
Definition TimingAllowOrigin : string := "Timing-Allow-Origin".

(** Downloads *)
Definition ContentDisposition : string := "Content-Disposition".

(** Integrity Digests *)
Definition ContentDigest : string := "Content-Digest".
Definition ReprDigest : string := "Repr-Digest".
Definition WantContentDigest : string := "Want-Content-Digest".
Definition WantReprDigest : string := "Want-Repr-Digest".

(** Message Body Information *)
Definition ContentEncoding : string := "Content-Encoding".
Definition ContentLanguage : string := "Content-Language".
Definition ContentLength : string := "Content-Length".
Definition ContentLocation : string := "Content-Location".
Definition ContentType : string := "Content-Type".

(** Preferences *)
Definition Prefer : string := "Prefer".
Definition PreferenceApplied : string := "Preference-Applied".

(** Proxies *)
Definition Forwarded : string := "Forwarded".
Definition Via : string := "Via".

(** Range Requests *)
Definition AcceptRanges : string := "Accept-Ranges".
Definition ContentRange : string := "Content-Range".
Definition IfRange : string := "If-Range".
Definition Range : string := "Range".

(** Redirects *)
Definition Location : string := "Location".
Definition Refresh : string := "Refresh".

(** Request Context *)
Definition From : string := "From".
Definition Host : string := "Host".
Definition Referer : string := "Referer".
Definition ReferrerPolicy : string := "Referrer-Policy".
Definition UserAgent : string := "User-Agent".

(** Response Context *)
Definition Allow : string := "Allow".
Definition Server : string := "Server".

(** Security *)
Definition ContentSecurityPolicy : string := "Content-Security-Policy".
Definition ContentSecurityPolicyReportOnly : string :=
  "Content-Security-Policy-Report-Only".
Definition CrossOriginEmbedderPolicy : string := "Cross-Origin-Embedder-Policy".
Definition CrossOriginOpenerPolicy : string := "Cross-Origin-Opener-Policy".
Definition CrossOriginResourcePolicy : string := "Cross-Origin-Resource-Policy".
Definition PermissionsPolicy : string := "Permissions-Policy".
Definition ReportingEndpoints : string := "Reporting-Endpoints".
Definition StrictTransportSecurity : string := "Strict-Transport-Security".
Definition UpgradeInsecureRequests : string := "Upgrade-Insecure-Requests".
Definition XContentTypeOptions : string := "X-Content-Type-Options".
Definition XFrameOptions : string := "X-Frame-Options".
Definition XPermittedCrossDomainPolicies : string :=
  "X-Permitted-Cross-Domain-Policies".
Definition XPoweredBy : string := "X-Powered-By".
Definition XXSSProtection : string := "X-XSS-Protection".

(** Fetch Metadata *)
Definition SecFetchDest : string := "Sec-Fetch-Dest".
Definition SecFetchMode : string := "Sec-Fetch-Mode".
Definition SecFetchSite : string := "Sec-Fetch-Site".
Definition SecFetchUser : string := "Sec-Fetch-User".
Definition SecPurpose : string := "Sec-Purpose".

(** Fetch Storage Access *)
Definition SecFetchStorageAccess : string := "Sec-Fetch-Storage-Access".
Definition ActivateStorageAccess : string := "Activate-Storage-Access".

(** Server-Sent Events *)
Definition ReportTo : string := "Report-To".

(** Transfer Coding *)
Definition TE : string := "TE".
Definition Trailer : string := "Trailer".
Definition TransferEncoding : string := "Transfer-Encoding".

(** WebSockets *)
Definition SecWebSocketAccept : string := "Sec-WebSocket-Accept".
Definition SecWebSocketExtensions : string := "Sec-WebSocket-Extensions".
Definition SecWebSocketKey : string := "Sec-WebSocket-Key".
Definition SecWebSocketProtocol : string := "Sec-WebSocket-Protocol".
Definition SecWebSocketVersion : string := "Sec-WebSocket-Version".

(** Other *)
Definition AltSvc : string := "Alt-Svc".
Definition AltUsed : string := "Alt-Used".
Definition Date : string := "Date".
Definition Link : string := "Link".
Definition RetryAfter : string := "Retry-After".
Definition ServerTiming : string := "Server-Timing".
Definition ServiceWorker : string := "Service-Worker".
Definition ServiceWorkerAllowed : string := "Service-Worker-Allowed".
Definition ServiceWorkerNavigationPreload : string :=
  "Service-Worker-Navigation-Preload".
Definition SourceMap : string := "SourceMap".
Definition Upgrade : string := "Upgrade".
Definition Priority : string := "Priority".

(** Client Hints *)
Definition AcceptCH : string := "Accept-CH".
Definition CriticalCH : string := "Critical-CH".
Definition SecCHUA : string := "Sec-CH-UA".
Definition SecCHUAArch : string := "Sec-CH-UA-Arch".
Definition SecCHUABitness : string := "Sec-CH-UA-Bitness".
Definition SecCHUAFormFactors : string := "Sec-CH-UA-Form-Factors".
Definition SecCHUAFullVersion : string := "Sec-CH-UA-Full-Version".
Definition SecCHUAFullVersionList : string := "Sec-CH-UA-Full-Version-List".
Definition SecCHUAMobile : string := "Sec-CH-UA-Mobile".
Definition SecCHUAModel : string := "Sec-CH-UA-Model".
Definition SecCHUAPlatform : string := "Sec-CH-UA-Platform".
Definition SecCHUAPlatformVersion : string := "Sec-CH-UA-Platform-Version".
Definition SecCHUAWoW64 : string := "Sec-CH-UA-WoW64".
Definition SecCHPrefersColorScheme : string := "Sec-CH-Prefers-Color-Scheme".
Definition SecCHPrefersReducedMotion : string :=
  "Sec-CH-Prefers-Reduced-Motion".
Definition SecCHPrefersReducedTransparency : string :=
  "Sec-CH-Prefers-Reduced-Transparency".
Definition SecCHDeviceMemory : string := "Sec-CH-Device-Memory".
Definition SecCHDPR : string := "Sec-CH-DPR".
Definition SecCHViewportHeight : string := "Sec-CH-Viewport-Height".
Definition SecCHViewportWidth : string := "Sec-CH-Viewport-Width".
Definition Downlink : string := "Downlink".
Definition ECT : string := "ECT".
Definition RTT : string := "RTT".
Definition SaveData : string := "Save-Data".

(** Compression Dictionary Transport *)
Definition AvailableDictionary : string := "Available-Dictionary".
Definition DictionaryID : string := "Dictionary-ID".
Definition UseAsDictionary : string := "Use-As-Dictionary".

(** Privacy *)
Definition DNT : string := "DNT".
Definition Tk : string := "Tk".
Definition SecGPC : string := "Sec-GPC".

(** Non-standard but common *)
Definition XForwardedFor : string := "X-Forwarded-For".
Definition XForwardedHost : string := "X-Forwarded-Host".
Definition XForwardedProto : string := "X-Forwarded-Proto".
Definition XDNSPrefetchControl : string := "X-DNS-Prefetch-Control".
Definition XRobotsTag : string := "X-Robots-Tag".

(** Deprecated *)
Definition Pragma : string := "Pragma".
Definition Warning : string := "Warning".

(** Every constant of the block. *)
Definition all_headers : list string :=
  [Authorization; ProxyAuthorization; WWWAuthenticate; ProxyAuthenticate; Age;
   CacheControl; ClearSiteData; Expires; NoVarySearch; ETag; IfMatch;
   IfNoneMatch; IfModifiedSince; IfUnmodifiedSince; LastModified; Vary;
   Connection; KeepAlive; Accept; AcceptEncoding; AcceptLanguage; AcceptPatch;
   AcceptPost; Expect; MaxForwards; Cookie; SetCookie;
   AccessControlAllowCredentials; AccessControlAllowHeaders;
   AccessControlAllowMethods; AccessControlAllowOrigin;
   AccessControlExposeHeaders; AccessControlMaxAge;
   AccessControlRequestHeaders; AccessControlRequestMethod; Origin;
   TimingAllowOrigin; ContentDisposition; ContentDigest; ReprDigest;
   WantContentDigest; WantReprDigest; ContentEncoding; ContentLanguage;
   ContentLength; ContentLocation; ContentType; Prefer; PreferenceApplied;
   Forwarded; Via; AcceptRanges; ContentRange; IfRange; Range; Location;
   Refresh; From; Host; Referer; ReferrerPolicy; UserAgent; Allow; Server;
   ContentSecurityPolicy; ContentSecurityPolicyReportOnly;
   CrossOriginEmbedderPolicy; CrossOriginOpenerPolicy;
   CrossOriginResourcePolicy; PermissionsPolicy; ReportingEndpoints;
   StrictTransportSecurity; UpgradeInsecureRequests; XContentTypeOptions;
   XFrameOptions; XPermittedCrossDomainPolicies; XPoweredBy; XXSSProtection;
   SecFetchDest; SecFetchMode; SecFetchSite; SecFetchUser; SecPurpose;
   SecFetchStorageAccess; ActivateStorageAccess; ReportTo; TE; Trailer;
   TransferEncoding; SecWebSocketAccept; SecWebSocketExtensions;
   SecWebSocketKey; SecWebSocketProtocol; SecWebSocketVersion; AltSvc;
   AltUsed; Date; Link; RetryAfter; ServerTiming; ServiceWorker;
   ServiceWorkerAllowed; ServiceWorkerNavigationPreload; SourceMap; Upgrade;
   Priority; AcceptCH; CriticalCH; SecCHUA; SecCHUAArch; SecCHUABitness;
   SecCHUAFormFactors; SecCHUAFullVersion; SecCHUAFullVersionList;
   SecCHUAMobile; SecCHUAModel; SecCHUAPlatform; SecCHUAPlatformVersion;
   SecCHUAWoW64; SecCHPrefersColorScheme; SecCHPrefersReducedMotion;
   SecCHPrefersReducedTransparency; SecCHDeviceMemory; SecCHDPR;
   SecCHViewportHeight; SecCHViewportWidth; Downlink; ECT; RTT; SaveData;
   AvailableDictionary; DictionaryID; UseAsDictionary; DNT; Tk; SecGPC;
   XForwardedFor; XForwardedHost; XForwardedProto; XDNSPrefetchControl;
   XRobotsTag; Pragma; Warning].

(** The groups: an empty struct type, the package variable of that
    type, and its methods, each returning one of the constants. *)

(** Auth provides authentication-related headers *)
Inductive authHeaders : Set := Auth.
Definition authHeaders_Authorization (_ : authHeaders) : string :=
  Authorization.
Definition authHeaders_ProxyAuthorization (_ : authHeaders) : string :=
  ProxyAuthorization.
Definition authHeaders_WWWAuthenticate (_ : authHeaders) : string :=
  WWWAuthenticate.
Definition authHeaders_ProxyAuthenticate (_ : authHeaders) : string :=
  ProxyAuthenticate.

(** Cache provides caching-related headers *)
Inductive cacheHeaders : Set := Cache.
Definition cacheHeaders_Age (_ : cacheHeaders) : string := Age.
Definition cacheHeaders_CacheControl (_ : cacheHeaders) : string :=
  CacheControl.
Definition cacheHeaders_ClearSiteData (_ : cacheHeaders) : string :=
  ClearSiteData.
Definition cacheHeaders_Expires (_ : cacheHeaders) : string := Expires.
Definition cacheHeaders_NoVarySearch (_ : cacheHeaders) : string :=
  NoVarySearch.
Definition cacheHeaders_Pragma (_ : cacheHeaders) : string := Pragma.

(** Cond provides conditional request headers *)
Inductive condHeaders : Set := Cond.
Definition condHeaders_ETag (_ : condHeaders) : string := ETag.
Definition condHeaders_IfMatch (_ : condHeaders) : string := IfMatch.
Definition condHeaders_IfNoneMatch (_ : condHeaders) : string := IfNoneMatch.
Definition condHeaders_IfModifiedSince (_ : condHeaders) : string :=
  IfModifiedSince.
Definition condHeaders_IfUnmodifiedSince (_ : condHeaders) : string :=
  IfUnmodifiedSince.
Definition condHeaders_LastModified (_ : condHeaders) : string := LastModified.
Definition condHeaders_Vary (_ : condHeaders) : string := Vary.

(** Conn provides connection management headers *)
Inductive connHeaders : Set := Conn.
Definition connHeaders_Connection (_ : connHeaders) : string := Connection.
Definition connHeaders_KeepAlive (_ : connHeaders) : string := KeepAlive.

(** Negotiation provides content negotiation headers *)
Inductive negotiationHeaders : Set := Negotiation.
Definition negotiationHeaders_Accept (_ : negotiationHeaders) : string :=
  Accept.
Definition negotiationHeaders_AcceptEncoding
    (_ : negotiationHeaders) : string :=
  AcceptEncoding.
Definition negotiationHeaders_AcceptLanguage
    (_ : negotiationHeaders) : string :=
  AcceptLanguage.
Definition negotiationHeaders_AcceptPatch (_ : negotiationHeaders) : string :=
  AcceptPatch.
Definition negotiationHeaders_AcceptPost (_ : negotiationHeaders) : string :=
  AcceptPost.

(** Cookies provides cookie-related headers *)
Inductive cookieHeaders : Set := Cookies.
Definition cookieHeaders_Cookie (_ : cookieHeaders) : string := Cookie.
Definition cookieHeaders_SetCookie (_ : cookieHeaders) : string := SetCookie.

(** CORS provides Cross-Origin Resource Sharing headers *)
Inductive corsHeaders : Set := CORS.
Definition corsHeaders_AllowCredentials (_ : corsHeaders) : string :=
  AccessControlAllowCredentials.
Definition corsHeaders_AllowHeaders (_ : corsHeaders) : string :=
  AccessControlAllowHeaders.
Definition corsHeaders_AllowMethods (_ : corsHeaders) : string :=
  AccessControlAllowMethods.
Definition corsHeaders_AllowOrigin (_ : corsHeaders) : string :=
  AccessControlAllowOrigin.
Definition corsHeaders_ExposeHeaders (_ : corsHeaders) : string :=
  AccessControlExposeHeaders.
Definition corsHeaders_MaxAge (_ : corsHeaders) : string := AccessControlMaxAge.
Definition corsHeaders_RequestHeaders (_ : corsHeaders) : string :=
  AccessControlRequestHeaders.
Definition corsHeaders_RequestMethod (_ : corsHeaders) : string :=
  AccessControlRequestMethod.
Definition corsHeaders_Origin (_ : corsHeaders) : string := Origin.
Definition corsHeaders_TimingAllowOrigin (_ : corsHeaders) : string :=
  TimingAllowOrigin.

(** Content provides content-related headers *)
Inductive contentHeaders : Set := Content.
Definition contentHeaders_Disposition (_ : contentHeaders) : string :=
  ContentDisposition.
Definition contentHeaders_Encoding (_ : contentHeaders) : string :=
  ContentEncoding.
Definition contentHeaders_Language (_ : contentHeaders) : string :=
  ContentLanguage.
Definition contentHeaders_Length (_ : contentHeaders) : string := ContentLength.
Definition contentHeaders_Location (_ : contentHeaders) : string :=
  ContentLocation.
Definition contentHeaders_Type (_ : contentHeaders) : string := ContentType.
Definition contentHeaders_Range (_ : contentHeaders) : string := ContentRange.

(** Range provides range request headers *)
Inductive rangeHeaders : Set := Ranges.
Definition rangeHeaders_AcceptRanges (_ : rangeHeaders) : string :=
  AcceptRanges.
Definition rangeHeaders_ContentRange (_ : rangeHeaders) : string :=
  ContentRange.
Definition rangeHeaders_IfRange (_ : rangeHeaders) : string := IfRange.
Definition rangeHeaders_Range (_ : rangeHeaders) : string := Range.

(** Redirect provides redirect-related headers *)
Inductive redirectHeaders : Set := Redirect.
Definition redirectHeaders_Location (_ : redirectHeaders) : string := Location.
Definition redirectHeaders_Refresh (_ : redirectHeaders) : string := Refresh.

(** Request provides request context headers *)
Inductive requestHeaders : Set := Request.
Definition requestHeaders_From (_ : requestHeaders) : string := From.
Definition requestHeaders_Host (_ : requestHeaders) : string := Host.
Definition requestHeaders_Referer (_ : requestHeaders) : string := Referer.
Definition requestHeaders_ReferrerPolicy (_ : requestHeaders) : string :=
  ReferrerPolicy.
Definition requestHeaders_UserAgent (_ : requestHeaders) : string := UserAgent.

(** Response provides response context headers *)
Inductive responseHeaders : Set := Response.
Definition responseHeaders_Allow (_ : responseHeaders) : string := Allow.
Definition responseHeaders_Server (_ : responseHeaders) : string := Server.

(** Security provides security-related headers *)
Inductive securityHeaders : Set := Security.
Definition securityHeaders_CSP (_ : securityHeaders) : string :=
  ContentSecurityPolicy.
Definition securityHeaders_CSPReportOnly (_ : securityHeaders) : string :=
  ContentSecurityPolicyReportOnly.
Definition securityHeaders_COEP (_ : securityHeaders) : string :=
  CrossOriginEmbedderPolicy.
Definition securityHeaders_COOP (_ : securityHeaders) : string :=
  CrossOriginOpenerPolicy.
Definition securityHeaders_CORP (_ : securityHeaders) : string :=
  CrossOriginResourcePolicy.
Definition securityHeaders_PermissionsPolicy (_ : securityHeaders) : string :=
  PermissionsPolicy.
Definition securityHeaders_HSTS (_ : securityHeaders) : string :=
  StrictTransportSecurity.
Definition securityHeaders_UpgradeInsecureRequests
    (_ : securityHeaders) : string :=
  UpgradeInsecureRequests.
Definition securityHeaders_XContentTypeOptions (_ : securityHeaders) : string :=
  XContentTypeOptions.
Definition securityHeaders_XFrameOptions (_ : securityHeaders) : string :=
  XFrameOptions.
Definition securityHeaders_XXSSProtection (_ : securityHeaders) : string :=
  XXSSProtection.

(** WS provides WebSocket headers *)
Inductive wsHeaders : Set := WS.
Definition wsHeaders_Accept (_ : wsHeaders) : string := SecWebSocketAccept.
Definition wsHeaders_Extensions (_ : wsHeaders) : string :=
  SecWebSocketExtensions.
Definition wsHeaders_Key (_ : wsHeaders) : string := SecWebSocketKey.
Definition wsHeaders_Protocol (_ : wsHeaders) : string := SecWebSocketProtocol.
Definition wsHeaders_Version (_ : wsHeaders) : string := SecWebSocketVersion.

(** What the methods of each group return, group by group. *)
Definition grouped : list (list string) :=
  [[authHeaders_Authorization Auth; authHeaders_ProxyAuthorization Auth;
    authHeaders_WWWAuthenticate Auth; authHeaders_ProxyAuthenticate Auth];
   [cacheHeaders_Age Cache; cacheHeaders_CacheControl Cache;
    cacheHeaders_ClearSiteData Cache; cacheHeaders_Expires Cache;
    cacheHeaders_NoVarySearch Cache; cacheHeaders_Pragma Cache];
   [condHeaders_ETag Cond; condHeaders_IfMatch Cond;
    condHeaders_IfNoneMatch Cond; condHeaders_IfModifiedSince Cond;
    condHeaders_IfUnmodifiedSince Cond; condHeaders_LastModified Cond;
    condHeaders_Vary Cond];
   [connHeaders_Connection Conn; connHeaders_KeepAlive Conn];
   [negotiationHeaders_Accept Negotiation;
    negotiationHeaders_AcceptEncoding Negotiation;
    negotiationHeaders_AcceptLanguage Negotiation;
    negotiationHeaders_AcceptPatch Negotiation;
    negotiationHeaders_AcceptPost Negotiation];
   [cookieHeaders_Cookie Cookies; cookieHeaders_SetCookie Cookies];
   [corsHeaders_AllowCredentials CORS; corsHeaders_AllowHeaders CORS;
    corsHeaders_AllowMethods CORS; corsHeaders_AllowOrigin CORS;
    corsHeaders_ExposeHeaders CORS; corsHeaders_MaxAge CORS;
    corsHeaders_RequestHeaders CORS; corsHeaders_RequestMethod CORS;
    corsHeaders_Origin CORS; corsHeaders_TimingAllowOrigin CORS];
   [contentHeaders_Disposition Content; contentHeaders_Encoding Content;
    contentHeaders_Language Content; contentHeaders_Length Content;
    contentHeaders_Location Content; contentHeaders_Type Content;
    contentHeaders_Range Content];
   [rangeHeaders_AcceptRanges Ranges; rangeHeaders_ContentRange Ranges;
    rangeHeaders_IfRange Ranges; rangeHeaders_Range Ranges];
   [redirectHeaders_Location Redirect; redirectHeaders_Refresh Redirect];
   [requestHeaders_From Request; requestHeaders_Host Request;
    requestHeaders_Referer Request; requestHeaders_ReferrerPolicy Request;
    requestHeaders_UserAgent Request];
   [responseHeaders_Allow Response; responseHeaders_Server Response];
   [securityHeaders_CSP Security; securityHeaders_CSPReportOnly Security;
    securityHeaders_COEP Security; securityHeaders_COOP Security;
    securityHeaders_CORP Security; securityHeaders_PermissionsPolicy Security;
    securityHeaders_HSTS Security;
    securityHeaders_UpgradeInsecureRequests Security;
    securityHeaders_XContentTypeOptions Security;
    securityHeaders_XFrameOptions Security;
    securityHeaders_XXSSProtection Security];
   [wsHeaders_Accept WS; wsHeaders_Extensions WS; wsHeaders_Key WS;
    wsHeaders_Protocol WS; wsHeaders_Version WS]].

End headers.

(** ** Concrete instances, for running the package on sample requests *)

(** [strings.ToLower] and [strings.TrimSpace] on ASCII text. *)
Definition ascii_lower (c : ascii) : ascii :=
  if (65 <=? byte_val c) && (byte_val c <=? 90)
  then Ascii.ascii_of_N (Z.to_N (byte_val c + 32)) else c.

Fixpoint ascii_ToLower (s : string) : string :=
  match s with
  | EmptyString => EmptyString
  | String.String c s' => String.String (ascii_lower c) (ascii_ToLower s')
  end.

Definition ascii_space (c : ascii) : bool :=
  bool_decide (byte_val c ∈ [9; 10; 11; 12; 13; 32]).

Fixpoint trim_left (s : string) : string :=
  match s with
  | EmptyString => EmptyString
  | String.String c s' => if ascii_space c then trim_left s' else s
  end.

Definition ascii_TrimSpace (s : string) : string :=
  String.rev (trim_left (String.rev (trim_left s))).

(** A stand-in for [strconv.ParseFloat] that reads integer literals
    only and rejects everything else. *)
Definition integral_ParseFloat : strconv.Parser float := λ s,
  match strconv.ParseInt Arch64 s 64 with
  | (n, None) =>
      let m := PrimFloat.of_uint63 (Uint63.of_Z (Z.abs n)) in
      (if n <? 0 then PrimFloat.opp m else m, None)
  | (_, Some e) => (0%float, Some strconv.ErrSyntax)
  end.

Definition heap0 : heap := Heap ∅ ∅ 1%positive.

(** ** Vocabulary of the specification *)

(** The raw values recorded for a key, in order; none for an absent
    key. *)
Definition raw (r : Request) (key : string) : list string :=
  default [] (values_of r !! key).

(** The first raw value recorded for a key. *)
Definition first_raw (r : Request) (key : string) : option string :=
  head (raw r key).

(** The value a conversion stands for: the parsed value, or the default
    when the conversion failed. *)
Definition or_default {T : Type} (d : T) (res : T * option strconv.error)
  : T :=
  if strconv.failed res then d else res.1.

(** Scalar extraction as the specification words it (4.1): the parsed
    first value, or the default when there is no first value, when it
    is empty, or when it does not parse. *)
Definition scalar {T : Type} (parser : strconv.Parser T) (d : T)
    (first : option string) : T :=
  match first with
  | None => d
  | Some s => if decide (s = "") then d else or_default d (parser s)
  end.

(** The three conditions under which scalar extraction falls back. *)
Definition falls_back {T : Type} (parser : strconv.Parser T)
    (r : Request) (key : string) : Prop :=
  values_of r !! key = None
  ∨ first_raw r key = Some ""
  ∨ ∃ s, first_raw r key = Some s ∧ strconv.failed (parser s) = true.

(** The parser of [String]: every string stands for itself. *)
Definition verbatim : strconv.Parser string := λ s, (s, None).

(** Base-10 literals as the specification words them (4.1): decimal
    digits after an optional sign. *)
Fixpoint digits_value (s : string) (acc : Z) : option Z :=
  match s with
  | EmptyString => Some acc
  | String.String c s' =>
      if strconv.is_digit c
      then digits_value s' (acc * 10 + (byte_val c - 48))
      else None
  end.

Definition decimal (s : string) : option Z :=
  match s with
  | EmptyString => None
  | String.String c s' =>
      if bool_decide (c = "-"%char) then
        if decide (s' = "") then None else Z.opp <$> digits_value s' 0
      else if bool_decide (c = "+"%char) then
        if decide (s' = "") then None else digits_value s' 0
      else digits_value s 0
  end.

Definition in_range (bits v : Z) : Prop :=
  - 2 ^ (bits - 1) ≤ v < 2 ^ (bits - 1).

#[global] Instance in_range_dec bits v : Decision (in_range bits v).
Proof. unfold in_range. apply _. Defined.

(** The value of a literal that fits a signed integer of [bits] bits. *)
Definition decimal_in (bits : Z) (s : string) : option Z :=
  match decimal s with
  | Some v => if decide (in_range bits v) then Some v else None
  | None => None
  end.

(** Numerals of floating point as the specification words them (4.1):
    decimal digits with an optional fractional part, after an optional
    sign and before an optional exponent, which is a base-10 literal
    after [e] or [E].  [digits_prefix] splits off the leading digits. *)
Fixpoint digits_prefix (s : string) : string * string :=
  match s with
  | String.String c s' =>
      if strconv.is_digit c then
        let '(ds, rest) := digits_prefix s' in (String.String c ds, rest)
      else (EmptyString, s)
  | EmptyString => (EmptyString, EmptyString)
  end.

(** An unsigned numeral stands for [M * 10 ^ E]: [M] is the number its
    digits spell, and [E] its exponent less the number of digits behind
    the point.  There is at least one digit. *)
Definition float_number (s1 : string) : option (Z * Z) :=
  let '(ip, s2) := digits_prefix s1 in
  let '(fp, s3) :=
    match s2 with
    | String.String c s2' =>
        if bool_decide (c = "."%char) then digits_prefix s2'
        else (EmptyString, s2)
    | EmptyString => (EmptyString, s2)
    end in
  if decide (String.append ip fp = "") then None
  else
    M ← digits_value (String.append ip fp) 0;
    E ← match s3 with
        | EmptyString => Some 0
        | String.String c s4 =>
            if bool_decide (c = "e"%char) || bool_decide (c = "E"%char)
            then decimal s4 else None
        end;
    Some (M, E - Z.of_nat (String.length fp)).

(** A numeral with its sign: [(neg, M, E)] stands for [M * 10 ^ E],
    negated when [neg] is set. *)
Definition float_literal (s : string) : option (bool * Z * Z) :=
  match s with
  | String.String c s' =>
      let neg := bool_decide (c = "-"%char) in
      '(M, E) ← float_number
                  (if neg || bool_decide (c = "+"%char) then s' else s);
      Some (neg, M, E)
  | EmptyString => None
  end.

(** The rational number [m * b ^ k]: the value of a numeral for [b]
    10, the value of a float64 of mantissa [m] and exponent [k] for
    [b] 2. *)
Definition Qscale (m b k : Z) : Q := (inject_Z m * inject_Z b ^ k)%Q.

(** The finite values of float64, up to the sign: a mantissa of 53
    bits and an exponent from -1074 to 971. *)
Definition binary64 (m e : Z) : Prop := 0 ≤ m < 2 ^ 53 ∧ -1074 ≤ e ≤ 971.

(** Halfway between the largest float64, [2 ^ 1024 - 2 ^ 971], and
    [2 ^ 1024]: the values from here on are beyond the range of
    float64. *)
Definition float64_limit : Q := inject_Z (2 ^ 1024 - 2 ^ 970).

(** What the digit loop of [readFloat] keeps true of its variables. *)
Definition scan_inv (st : strconv.floatScan) : Prop :=
  0 ≤ strconv.nd st ∧ (strconv.nd st = 0 → strconv.mantissa st = 0).

(** The words the boolean parser knows. *)
Definition true_words : list string := ["true"; "1"; "yes"; "on"; "y"].
Definition false_words : list string := ["false"; "0"; "no"; "off"; "n"].

(** What a run returned through a reference: the elements of the
    returned slice, the content of the returned map. *)
Definition returned_strings (o : outcome slice) : option (list string) :=
  match o with Ok s h => slice_elems h s | Panic _ => None end.

Definition returned_values (o : outcome loc) : option Values :=
  match o with Ok m h => map_content h m | Panic _ => None end.

(** The contract of a scalar extractor [extract] with parser [parser]
    (4.1): it returns the parsed first value or the default, and it
    hands back whatever default it is given exactly when the request
    falls back for the key. *)
Definition scalar_contract {T : Type}
    (extract : Request → string → T → Go T) (parser : strconv.Parser T)
  : Prop :=
  ∀ (r : Request) (key : string),
    (∀ d h, result (extract r key d h)
            = Some (scalar parser d (first_raw r key)))
    ∧ ((∀ d h, result (extract r key d h) = Some d)
       ↔ falls_back parser r key).

(** A run that ends without a panic. *)
Definition returns {A : Type} (c : Go A) (h : heap) : Prop :=
  ∃ v h', c h = Ok v h'.

(** The values of the parameters named [key], in the order of the
    query string. *)
Definition values_named (key : string) (ps : list (string * string))
  : list string :=
  (filter (λ kv, kv.1 = key) ps).*2.

(** The heap after [All]: the parse, and the new map with the headers
    of the parse's map. *)
Definition with_copy (r : Request) (h : heap) : heap :=
  {| arenas := <[next h := values_of r]> (arenas h);
     maps := <[Pos.succ (next h)
               := map_imap (λ k vs, Some (header (next h) k vs))
                    (values_of r)]>
               (<[next h := map_imap (λ k vs, Some (header (next h) k vs))
                              (values_of r)]> (maps h));
     next := Pos.succ (Pos.succ (next h)) |}.

(** A header name as HTTP writes it: a non-empty string of letters,
    digits and hyphens. *)
Definition token_char (c : ascii) : bool :=
  ((48 <=? byte_val c) && (byte_val c <=? 57))
  || ((65 <=? byte_val c) && (byte_val c <=? 90))
  || ((97 <=? byte_val c) && (byte_val c <=? 122))
  || (byte_val c =? 45).

Definition is_token (s : string) : bool :=
  negb (String.eqb s "") && forallb token_char (list_ascii_of_string s).

(** Some requests. *)
Definition shop : Request :=
  {| params := [("page", "2"); ("limit", "50"); ("active", "true");
                ("sort", "price")] |}.

Definition ids : Request :=
  {| params := [("id", "1"); ("id", "2"); ("id", "invalid"); ("id", "5")] |}.

Definition tags : Request :=
  {| params := [("tag", ""); ("tag", "")] |}.

Definition limits : Request :=
  {| params := [("small", "-9999999999"); ("wide", "2147483648");
                ("huge", "9223372036854775808");
                ("nul", String.String (Ascii.ascii_of_nat 0) "1");
                ("flag", " TRUE "); ("tag", "")] |}.

Definition prices : Request :=
  {| params := [("price", "19.99"); ("rate", "1.23e-4"); ("half", "-.5");
                ("zero", "-0"); ("large", "1e400"); ("word", "12abc");
                ("price", "1e-400"); ("price", "4.9e-324")] |}.

(** A caller that takes the snapshot of [ids], overwrites the first
    element of the returned map's slice for [id], looks at the
    returned map again and then extracts from the request. *)
Definition overwrite_snapshot : Go (option (list (string * list string))
                                    * Z * list Z) :=
  m ← query.All ids;
  '(s, _) ← map_index m "id";
  slice_store s 0 "7";;
  seen ← (λ h, Ok (map_to_list <$> map_content h m) h);
  n ← query.Int Arch64 ids "id" 0;
  ns ← query.Ints Arch64 ids "id" 0;
  mret (seen, n, ns).

(** * Properties *)

(** ** The multi-map of a request *)

Lemma ParseQuery_step_nonempty (ps : list (string * string)) :
  ∀ m : Values,
    map_Forall (λ _ vs, vs ≠ []) m →
    map_Forall (λ _ vs, vs ≠ [])
      (foldl (λ (m : Values) kv,
                <[kv.1 := (default [] (m !! kv.1) ++ [kv.2])%list]> m) m ps).
Proof.
  induction ps as [|kv ps IH]; intros m Hm; simpl; [done|].
  apply IH, map_Forall_insert_2; [|done].
  by destruct (default [] (m !! kv.1)).
Qed.

(** A key that is recorded has at least one value. *)
Lemma values_of_nonempty (r : Request) (key : string) (vs : list string) :
  values_of r !! key = Some vs → vs ≠ [].
Proof.
  intros Hvs.
  assert (H : map_Forall (λ _ vs, vs ≠ []) (values_of r)).
  { apply ParseQuery_step_nonempty, map_Forall_empty. }
  exact (H key vs Hvs).
Qed.

Lemma raw_absent (r : Request) (key : string) :
  values_of r !! key = None ↔ raw r key = [].
Proof.
  unfold raw. split; [by intros ->|].
  destruct (values_of r !! key) as [vs|] eqn:E; [|done].
  simpl. intros ->. by apply values_of_nonempty in E.
Qed.

Lemma first_raw_absent (r : Request) (key : string) :
  values_of r !! key = None ↔ first_raw r key = None.
Proof.
  rewrite raw_absent. unfold first_raw. by destruct (raw r key).
Qed.

(** ** Running the primitives after a parse *)

Ltac go_step :=
  unfold mbind, mret, Go_bind, Go_ret, panic; simpl.

Lemma map_index_parse (r : Request) (h : heap) (key : string) :
  map_index (next h) key (with_parse r h)
  = Ok (match values_of r !! key with
        | Some vs => (header (next h) key vs, true)
        | None => (nil_slice, false)
        end) (with_parse r h).
Proof.
  unfold map_index. simpl. rewrite lookup_insert_eq, map_lookup_imap.
  by destruct (values_of r !! key).
Qed.

Lemma slice_elems_parse (r : Request) (h : heap) (key : string)
    (vs : list string) :
  values_of r !! key = Some vs →
  slice_elems (with_parse r h) (header (next h) key vs) = Some vs.
Proof.
  intros Hvs. unfold slice_elems. simpl.
  rewrite lookup_insert_eq. simpl. rewrite Hvs. simpl.
  rewrite decide_True by done. by rewrite firstn_all.
Qed.

Lemma Values_Get_parse (r : Request) (h : heap) (key : string) :
  Values_Get (next h) key (with_parse r h)
  = Ok (default "" (first_raw r key)) (with_parse r h).
Proof.
  unfold Values_Get, first_raw, raw. go_step. rewrite map_index_parse.
  destruct (values_of r !! key) as [vs|] eqn:E; simpl; [|done].
  destruct vs as [|v vs]; simpl; [done|].
  unfold slice_at. rewrite decide_True by (simpl; lia).
  by rewrite (slice_elems_parse _ _ _ _ E).
Qed.

(** The loop of [Slice]: after the values [vs] are visited from index
    [k] on, slots [k] to [k + length vs] hold their conversions. *)
Lemma fill_loop {T : Type} (d : T) (parser : strconv.Parser T)
    (vs : list string) :
  ∀ (k : nat) (res : list T) (h : heap),
    (k + length vs ≤ length res)%nat →
    for_each
      (λ result '(i, val),
         let '(parsed, err) := parser val in
         if err is Some _ then store result i d
         else store result i parsed)
      (imap (λ i v, ((k + i)%nat, v)) vs) res h
    = Ok (take k res ++ map (λ v, or_default d (parser v)) vs
            ++ drop (k + length vs) res)%list h.
Proof.
  induction vs as [|v vs IH]; intros k res h Hlen; simpl in *.
  - go_step. by rewrite Nat.add_0_r, take_drop.
  - go_step. rewrite Nat.add_0_r.
    assert (Hk : (k < length res)%nat) by lia.
    set (x := or_default d (parser v)).
    assert (Hstore : (let '(parsed, err) := parser v in
                      if err is Some _ then store res k d
                      else store res k parsed) h = Ok (<[k := x]> res) h).
    { subst x. unfold or_default, strconv.failed, store.
      destruct (parser v) as [p [e|]]; simpl;
        by rewrite decide_True by done. }
    rewrite Hstore.
    rewrite (imap_ext _ (λ i v0, ((S k + i)%nat, v0)))
      by (intros; simpl; f_equal; lia).
    rewrite IH by (rewrite length_insert; lia).
    f_equal.
    rewrite (take_S_r _ _ x) by (by apply list_lookup_insert_eq).
    rewrite take_insert_ge by lia.
    rewrite drop_insert_lt by lia.
    rewrite <- (assoc_L (++)). simpl.
    by replace (k + S (length vs))%nat with (S (k + length vs)) by lia.
Qed.

(** ** What each function of the package returns *)

Section Runs.

Variable arch : Arch.
Variables TrimSpace ToLower : string → string.
Variable ParseFloat : strconv.Parser float.

Ltac scalar_run :=
  intros; go_step; unfold URL_Query; rewrite Values_Get_parse;
  unfold scalar, or_default, strconv.failed, verbatim;
  match goal with |- context [first_raw ?r ?key] =>
    destruct (first_raw r key) as [s|]; simpl; [|done];
    destruct (decide (s = "")); [done|]
  end.

Lemma String_run (r : Request) (key d : string) (h : heap) :
  query.String r key d h
  = Ok (scalar verbatim d (first_raw r key)) (with_parse r h).
Proof. unfold query.String. scalar_run. done. Qed.

Lemma Int_run (r : Request) (key : string) (d : Z) (h : heap) :
  query.Int arch r key d h
  = Ok (scalar (strconv.Atoi arch) d (first_raw r key)) (with_parse r h).
Proof.
  unfold query.Int. scalar_run.
  by destruct (strconv.Atoi arch s) as [p [e|]].
Qed.

Lemma Int64_run (r : Request) (key : string) (d : Z) (h : heap) :
  query.Int64 arch r key d h
  = Ok (scalar (λ s, strconv.ParseInt arch s 64) d (first_raw r key))
       (with_parse r h).
Proof.
  unfold query.Int64. scalar_run.
  by destruct (strconv.ParseInt arch s 64) as [p [e|]].
Qed.

Lemma Float64_run (r : Request) (key : string) (d : float) (h : heap) :
  query.Float64 ParseFloat r key d h
  = Ok (scalar ParseFloat d (first_raw r key)) (with_parse r h).
Proof.
  unfold query.Float64. scalar_run.
  by destruct (ParseFloat s) as [p [e|]].
Qed.

Lemma Bool_run (r : Request) (key : string) (d : bool) (h : heap) :
  query.Bool TrimSpace ToLower r key d h
  = Ok (scalar (query.parseBool TrimSpace ToLower) d (first_raw r key))
       (with_parse r h).
Proof.
  unfold query.Bool. scalar_run.
  by destruct (query.parseBool TrimSpace ToLower s) as [p [e|]].
Qed.

Lemma Slice_run {T : Type} `{GoZero T} (r : Request) (key : string) (d : T)
    (parser : strconv.Parser T) (h : heap) :
  query.Slice r key d parser h
  = Ok (map (λ v, or_default d (parser v)) (raw r key)) (with_parse r h).
Proof.
  unfold query.Slice, raw. go_step. unfold URL_Query.
  rewrite map_index_parse.
  destruct (values_of r !! key) as [vs|] eqn:E; simpl; [|done].
  destruct vs as [|v vs]; [done|].
  destruct (decide _) as [Hlen|_]; [done|].
  unfold slice_range. rewrite (slice_elems_parse _ _ _ _ E).
  rewrite (fill_loop d parser (v :: vs) 0)
    by (simpl; rewrite length_replicate; lia).
  simpl. by rewrite drop_replicate, Nat.sub_diag, app_nil_r.
Qed.

Lemma Strings_run (r : Request) (key : string) (h : heap) :
  ∃ s, query.Strings r key h = Ok s (with_parse r h)
       ∧ slice_elems (with_parse r h) s = Some (raw r key).
Proof.
  unfold query.Strings, raw. go_step. unfold URL_Query.
  rewrite map_index_parse.
  destruct (values_of r !! key) as [vs|] eqn:E; simpl.
  - eexists. split; [done|]. by apply slice_elems_parse.
  - by eexists.
Qed.

Lemma Has_run (r : Request) (key : string) (h : heap) :
  query.Has r key h
  = Ok (bool_decide (is_Some (values_of r !! key))) (with_parse r h).
Proof.
  unfold query.Has. go_step. unfold URL_Query. rewrite map_index_parse.
  by destruct (values_of r !! key).
Qed.

Lemma Count_run (r : Request) (key : string) (h : heap) :
  query.Count r key h = Ok (Z.of_nat (length (raw r key))) (with_parse r h).
Proof.
  unfold query.Count, raw. go_step. unfold URL_Query.
  rewrite map_index_parse.
  by destruct (values_of r !! key).
Qed.

Lemma IsMultiple_run (r : Request) (key : string) (h : heap) :
  query.IsMultiple r key h
  = Ok (bool_decide (1 < Z.of_nat (length (raw r key)))) (with_parse r h).
Proof.
  unfold query.IsMultiple, raw. go_step. unfold URL_Query.
  rewrite map_index_parse.
  by destruct (values_of r !! key).
Qed.

Lemma First_run {T : Type} (xs : list T) (d : T) (h : heap) :
  query.First xs d h = Ok (default d (head xs)) h.
Proof. by destruct xs. Qed.

End Runs.

(** ** The copy that [All] makes *)

Lemma slice_elems_arenas (h h' : heap) (s : slice) :
  arenas h = arenas h' → slice_elems h s = slice_elems h' s.
Proof. unfold slice_elems. by intros ->. Qed.

(** The loop of [All]: the entries are stored into the map [m], over
    what it held before. *)
Lemma store_loop (entries : list (string * slice)) :
  ∀ (acc : gmap string slice) (m : loc) (h : heap),
    maps h !! m = Some acc →
    NoDup entries.*1 →
    for_each (λ _ '(k, v), map_store m k v) entries () h
    = Ok () {| arenas := arenas h;
               maps := <[m := list_to_map entries ∪ acc]> (maps h);
               next := next h |}.
Proof.
  induction entries as [|[k v] entries IH]; intros acc m h Hm Hnd; simpl.
  - go_step. rewrite (left_id_L ∅ (∪)), insert_id by done. by destruct h.
  - go_step. unfold map_store at 1. rewrite Hm.
    apply NoDup_cons in Hnd as [Hk Hnd].
    erewrite IH; [|simpl; apply lookup_insert_eq|done].
    simpl. rewrite insert_insert_eq. do 3 f_equal.
    rewrite <- insert_union_r by (by apply not_elem_of_list_to_map_1).
    by rewrite insert_union_l.
Qed.

Lemma store_loop_order (entries entries' : list (string * slice))
    (acc : gmap string slice) (m : loc) (h : heap) :
  entries ≡ₚ entries' →
  NoDup entries.*1 →
  maps h !! m = Some acc →
  for_each (λ _ '(k, v), map_store m k v) entries () h
  = for_each (λ _ '(k, v), map_store m k v) entries' () h.
Proof.
  intros Hperm Hnd Hm.
  assert (Hnd' : NoDup entries'.*1) by (by rewrite <- Hperm).
  rewrite !(store_loop _ acc) by done.
  by rewrite (list_to_map_proper _ _ Hnd Hperm).
Qed.

Lemma content_of_parse (r : Request) (h h' : heap) :
  arenas h' = arenas (with_parse r h) →
  omap (slice_elems h')
       (map_imap (λ k vs, Some (header (next h) k vs)) (values_of r))
  = values_of r.
Proof.
  intros Ha. apply map_eq. intros k.
  rewrite lookup_omap, map_lookup_imap.
  destruct (values_of r !! k) as [vs|] eqn:E; simpl; [|done].
  rewrite (slice_elems_arenas h' (with_parse r h)) by done.
  by apply slice_elems_parse.
Qed.

Lemma readable_of_parse (r : Request) (h h' : heap) :
  arenas h' = arenas (with_parse r h) →
  map_Forall (λ _ s, is_Some (slice_elems h' s))
    (map_imap (λ k vs, Some (header (next h) k vs)) (values_of r)).
Proof.
  intros Ha k s. rewrite map_lookup_imap.
  destruct (values_of r !! k) as [vs|] eqn:E; simpl; [|done].
  intros [= <-].
  rewrite (slice_elems_arenas h' (with_parse r h)) by done.
  rewrite (slice_elems_parse _ _ _ _ E). by eexists.
Qed.

(** [All] returns a new map object that holds the headers of the map
    it parsed: it shares the backing arrays of that parse, and nothing
    with any other parse. *)
Lemma All_run (r : Request) (h : heap) :
  ∃ h',
    query.All r h = Ok (Pos.succ (next h)) h'
    ∧ arenas h' = arenas (with_parse r h)
    ∧ maps h' !! Pos.succ (next h) = maps (with_parse r h) !! next h
    ∧ map_content h' (Pos.succ (next h)) = Some (values_of r).
Proof.
  unfold query.All. go_step. unfold URL_Query, map_make, map_range. simpl.
  assert (Hne : Pos.succ (next h) ≠ next h) by lia.
  rewrite lookup_insert_ne, lookup_insert_eq by done.
  erewrite store_loop;
    [|simpl; apply lookup_insert_eq|apply NoDup_fst_map_to_list].
  simpl. eexists. split; [done|]. simpl.
  rewrite list_to_map_to_list, (right_id_L ∅ (∪)), insert_insert_eq.
  repeat split.
  - by rewrite !lookup_insert_eq.
  - unfold map_content. simpl. rewrite lookup_insert_eq.
    rewrite decide_True by (by apply readable_of_parse).
    by rewrite content_of_parse.
Qed.

(** ** The conversions of strconv against the literals of the specification *)

Section Conversions.

Import strconv.

Lemma byte_val_range (c : ascii) : 0 ≤ byte_val c < 256.
Proof.
  unfold byte_val. pose proof (N_ascii_bounded c). lia.
Qed.

Lemma is_digit_range (c : ascii) :
  is_digit c = true ↔ 48 ≤ byte_val c ≤ 57.
Proof. unfold is_digit. lia. Qed.

Lemma digits_value_ge (s : string) :
  ∀ n v, 0 ≤ n → digits_value s n = Some v → n ≤ v.
Proof.
  induction s as [|c s IH]; intros n v Hn; simpl.
  - intros [= <-]. lia.
  - destruct (is_digit c) eqn:Hc; [|done].
    apply is_digit_range in Hc. intros Hv.
    apply IH in Hv; lia.
Qed.

Lemma to_uint_small (bits x : Z) :
  0 ≤ x < 2 ^ bits → to_uint bits x = x.
Proof. intros. unfold to_uint. by apply Z.mod_small. Qed.

Lemma to_int_small (bits x : Z) :
  0 < bits → in_range bits x → to_int bits x = x.
Proof.
  unfold in_range, to_int. intros Hb [Hlo Hhi].
  assert (Hp : 2 ^ bits = 2 * 2 ^ (bits - 1)).
  { rewrite <- Z.pow_succ_r by lia. f_equal. lia. }
  destruct (Z_lt_le_dec x 0) as [Hneg|Hpos].
  - replace (x mod 2 ^ bits) with (x + 2 ^ bits).
    + destruct (Z.ltb_spec (x + 2 ^ bits) (2 ^ (bits - 1))); lia.
    + apply (Z.mod_unique_pos _ _ (-1)); lia.
  - rewrite Z.mod_small by lia.
    destruct (Z.ltb_spec x (2 ^ (bits - 1))); lia.
Qed.

(** The digit loop of [ParseUint] reads the value of the digits when it
    fits, and reports every other string as an error. *)
Lemma ParseUint_digits_spec (maxVal : Z) (s : string) :
  maxVal ≤ maxUint64 →
  ∀ n, 0 ≤ n ≤ maxVal →
    match digits_value s n with
    | Some v =>
        if decide (v ≤ maxVal)
        then ParseUint_digits maxVal s n = (v, None)
        else ParseUint_digits maxVal s n = (maxVal, Some ErrRange)
    | None =>
        ParseUint_digits maxVal s n = (0, Some ErrSyntax)
        ∨ ParseUint_digits maxVal s n = (maxVal, Some ErrRange)
    end.
Proof.
  intros Hmax. unfold maxUint64 in Hmax.
  change (2 ^ 64) with 18446744073709551616 in Hmax.
  induction s as [|c s IH]; intros n Hn; simpl.
  - by rewrite decide_True by lia.
  - destruct (is_digit c) eqn:Hc; [|by left].
    apply is_digit_range in Hc.
    unfold maxUint64. change (2 ^ 64) with 18446744073709551616.
    change ((18446744073709551616 - 1) / 10 + 1) with 1844674407370955162.
    assert (Hmono : ∀ v, digits_value s (n * 10 + (byte_val c - 48)) = Some v
                         → n * 10 + (byte_val c - 48) ≤ v).
    { intros v. apply digits_value_ge. lia. }
    destruct (Z.leb_spec 1844674407370955162 n) as [Hcut|Hcut].
    { destruct (digits_value s _) as [v|]; [|by right].
      specialize (Hmono v eq_refl). by rewrite decide_False by lia. }
    rewrite (to_uint_small 64 (n * 10))
      by (change (2 ^ 64) with 18446744073709551616; lia).
    destruct (Z_lt_le_dec (n * 10 + (byte_val c - 48)) 18446744073709551616)
      as [Hfit|Hwrap].
    + rewrite to_uint_small
        by (change (2 ^ 64) with 18446744073709551616; lia).
      destruct (Z.ltb_spec (n * 10 + (byte_val c - 48)) (n * 10)); [lia|].
      destruct (Z.ltb_spec maxVal (n * 10 + (byte_val c - 48))) as [Hbig|Hok];
        simpl.
      * destruct (digits_value s _) as [v|]; [|by right].
        specialize (Hmono v eq_refl). by rewrite decide_False by lia.
      * apply IH. lia.
    + assert (Hw : to_uint 64 (n * 10 + (byte_val c - 48))
                   = n * 10 + (byte_val c - 48) - 18446744073709551616).
      { unfold to_uint. change (2 ^ 64) with 18446744073709551616.
        symmetry. apply (Z.mod_unique_pos _ _ 1); lia. }
      rewrite Hw.
      destruct (Z.ltb_spec (n * 10 + (byte_val c - 48) - 18446744073709551616)
                  (n * 10)); [|lia].
      simpl. destruct (digits_value s _) as [v|]; [|by right].
      specialize (Hmono v eq_refl). by rewrite decide_False by lia.
Qed.

(** The width a conversion works at: [bitSize], or the width of [int]
    when [bitSize] is 0. *)
Lemma ParseUint_spec (a : Arch) (s : string) (bitSize bits : Z) :
  bitSize = 0 ∧ bits = IntSize a ∨ bitSize = 64 ∧ bits = 64 →
  s ≠ "" →
  match digits_value s 0 with
  | Some v =>
      if decide (v < 2 ^ bits)
      then ParseUint a s bitSize = (v, None)
      else ParseUint a s bitSize = (2 ^ bits - 1, Some ErrRange)
  | None =>
      ParseUint a s bitSize = (0, Some ErrSyntax)
      ∨ ParseUint a s bitSize = (2 ^ bits - 1, Some ErrRange)
  end.
Proof.
  intros Hb Hs. unfold ParseUint. rewrite decide_False by done.
  assert (Hchk : (bitSize <? 0) || (64 <? bitSize) = false)
    by (by destruct Hb as [[-> _]|[-> _]]).
  assert (Heff : (if bitSize =? 0 then IntSize a else bitSize) = bits)
    by (by destruct Hb as [[-> ->]|[-> ->]]).
  assert (Hbits : bits = 32 ∨ bits = 64)
    by (destruct Hb as [[_ ->]|[_ ->]]; [destruct a|]; auto).
  rewrite Hchk, Heff.
  assert (Hmax : to_uint 64 (to_uint 64 (2 ^ bits) - 1) = 2 ^ bits - 1
                 ∧ 2 ^ bits - 1 ≤ maxUint64 ∧ 0 ≤ 2 ^ bits - 1)
    by (destruct Hbits as [-> | ->]; by vm_compute).
  destruct Hmax as (-> & Hle & Hge).
  pose proof (ParseUint_digits_spec (2 ^ bits - 1) s Hle 0 ltac:(lia)) as H.
  destruct (digits_value s 0) as [v|]; [|done].
  destruct (decide (v ≤ 2 ^ bits - 1)).
  - by rewrite decide_True by lia.
  - by rewrite decide_False by lia.
Qed.

(** [ParseInt] reads exactly the literals that fit the width. *)
Lemma ParseInt_spec (a : Arch) (s : string) (bitSize bits : Z) :
  bitSize = 0 ∧ bits = IntSize a ∨ bitSize = 64 ∧ bits = 64 →
  match decimal_in bits s with
  | Some v => ParseInt a s bitSize = (v, None)
  | None => failed (ParseInt a s bitSize) = true
  end.
Proof.
  intros Hb.
  assert (Hbits : bits = 32 ∨ bits = 64).
  { destruct Hb as [[_ ->]|[_ ->]]; [destruct a|]; auto. }
  assert (Heff : (if bitSize =? 0 then IntSize a else bitSize) = bits).
  { by destruct Hb as [[-> ->]|[-> ->]]. }
  destruct s as [|c s']; [done|].
  unfold ParseInt, decimal_in.
  set (neg := bool_decide (c = "-"%char)).
  set (plus := bool_decide (c = "+"%char)).
  set (s1 := if plus || neg then s' else String.String c s').
  assert (Hdec : decimal (String.String c s')
                 = if decide (s1 = "") then None
                   else if neg then Z.opp <$> digits_value s1 0
                        else digits_value s1 0).
  { unfold decimal, s1. fold neg plus.
    destruct neg, plus; simpl; try done. }
  rewrite Hdec, Heff. clear Hdec Heff.
  destruct (decide (s1 = "")) as [He|Hne].
  { rewrite He. done. }
  pose proof (ParseUint_spec a s1 bitSize bits Hb Hne) as Hu.
  pose proof (digits_value_ge s1 0) as Hge.
  destruct (digits_value s1 0) as [v|].
  2:{ destruct Hu as [-> | ->]; [by destruct neg|].
      destruct Hbits as [-> | ->]; by destruct neg. }
  specialize (Hge v ltac:(lia) eq_refl).
  destruct (decide (v < 2 ^ bits)) as [Hv|Hv]; rewrite Hu.
  2:{ assert (¬ in_range bits v ∧ ¬ in_range bits (- v)) as [H1 H2].
      { unfold in_range. destruct Hbits as [-> | ->];
          change (2 ^ 32) with 4294967296 in *;
          change (2 ^ 64) with 18446744073709551616 in *;
          change (2 ^ (32 - 1)) with 2147483648;
          change (2 ^ (64 - 1)) with 9223372036854775808; lia. }
      destruct neg; simpl; rewrite decide_False by done;
        destruct Hbits as [-> | ->]; done. }
  assert (Hcut : to_uint 64 (2 ^ (bits - 1)) = 2 ^ (bits - 1))
    by (by destruct Hbits as [-> | ->]).
  rewrite Hcut. unfold in_range.
  assert (HC : 2 ^ (bits - 1) = 2147483648
               ∨ 2 ^ (bits - 1) = 9223372036854775808)
    by (destruct Hbits as [-> | ->]; auto).
  assert (HP : 2 ^ bits = 2 * 2 ^ (bits - 1))
    by (by destruct Hbits as [-> | ->]).
  set (C := 2 ^ (bits - 1)) in *.
  assert (H63 : 2 ^ (64 - 1) = 9223372036854775808) by done.
  destruct neg; simpl.
  - destruct (Z.ltb_spec C v).
    + by rewrite decide_False by lia.
    + rewrite decide_True by lia. f_equal.
      destruct (decide (v = 9223372036854775808)) as [->|]; [done|].
      rewrite (to_int_small 64 v) by (unfold in_range; lia).
      apply to_int_small; [lia|]. unfold in_range. lia.
  - destruct (Z.leb_spec C v).
    + by rewrite decide_False by lia.
    + rewrite decide_True by lia. f_equal.
      apply to_int_small; [lia|]. unfold in_range. lia.
Qed.


(** The byte test of the short path of [Atoi] is the digit test. *)
Lemma to_uint8_digit (c : ascii) :
  (9 <? to_uint 8 (byte_val c - 48)) = negb (is_digit c).
Proof.
  pose proof (byte_val_range c) as Hc. unfold is_digit, to_uint.
  change (2 ^ 8) with 256.
  destruct (Z_lt_le_dec (byte_val c) 48).
  - replace ((byte_val c - 48) mod 256) with (byte_val c + 208)
      by (apply (Z.mod_unique_pos _ _ (-1)); lia).
    lia.
  - rewrite Z.mod_small by lia. lia.
Qed.

(** On strings short enough, the [int] arithmetic of the short path
    never wraps around. *)
Lemma Atoi_digits_spec (a : Arch) (s : string) :
  ∀ n, 0 ≤ n →
    (n + 1) * 10 ^ Z.of_nat (String.length s) ≤ 2 ^ (IntSize a - 1) →
    Atoi_digits a s n = digits_value s n
    ∧ ∀ v, digits_value s n = Some v →
           0 ≤ v < (n + 1) * 10 ^ Z.of_nat (String.length s).
Proof.
  induction s as [|c s IH]; intros n Hn Hb.
  - split; [done|]. simpl. intros v [= <-]. lia.
  - cbn [String.length] in *. rewrite Nat2Z.inj_succ, Z.pow_succ_r in * by lia.
    cbn [Atoi_digits digits_value]. rewrite to_uint8_digit.
    assert (HP : 0 < 10 ^ Z.of_nat (String.length s))
      by (apply Z.pow_pos_nonneg; lia).
    set (P := 10 ^ Z.of_nat (String.length s)) in *.
    destruct (is_digit c) eqn:Hc; simpl; [|done].
    apply is_digit_range in Hc.
    pose proof (byte_val_range c).
    rewrite to_uint_small by (change (2 ^ 8) with 256; lia).
    set (d := byte_val c - 48) in *.
    assert (Hstep : (n * 10 + d + 1) * P ≤ (n + 1) * (10 * P)) by nia.
    rewrite to_int_small; [|by destruct a|unfold in_range; nia].
    destruct (IH (n * 10 + d)) as [-> Hv]; [lia|lia|].
    split; [done|]. intros v Hd. specialize (Hv v Hd). lia.
Qed.

Lemma pow10_fits (a : Arch) (k : nat) :
  Z.of_nat k < match a with Arch32 => 10 | Arch64 => 19 end →
  10 ^ Z.of_nat k ≤ 2 ^ (IntSize a - 1).
Proof.
  intros Hk. destruct a; simpl IntSize.
  - transitivity (10 ^ 9); [apply Z.pow_le_mono_r; lia|by vm_compute].
  - transitivity (10 ^ 18); [apply Z.pow_le_mono_r; lia|by vm_compute].
Qed.

Lemma decimal_in_range (bits : Z) (s : string) (v : Z) :
  decimal_in bits s = Some v → decimal s = Some v ∧ in_range bits v.
Proof.
  unfold decimal_in. destruct (decimal s) as [w|]; [|done].
  destruct (decide (in_range bits w)); [|done]. by intros [= <-].
Qed.

(** [Atoi] reads exactly the literals that fit an [int]. *)
Lemma Atoi_spec (a : Arch) (s : string) :
  match decimal_in (IntSize a) s with
  | Some v => Atoi a s = (v, None)
  | None => failed (Atoi a s) = true
  end.
Proof.
  unfold Atoi.
  destruct ((0 <? Z.of_nat (String.length s))
            && (Z.of_nat (String.length s)
                <? match a with Arch32 => 10 | Arch64 => 19 end)) eqn:Hfast.
  2:{ pose proof (ParseInt_spec a s 0 (IntSize a)
                    (or_introl (conj eq_refl eq_refl))) as H.
      destruct (decimal_in (IntSize a) s) as [v|] eqn:E.
      - rewrite H. f_equal. apply decimal_in_range in E as [_ E].
        apply to_int_small; [by destruct a|done].
      - by destruct (ParseInt a s 0) as [i e]. }
  destruct s as [|c s']; [done|].
  apply andb_true_iff in Hfast as [_ Hlen]. apply Z.ltb_lt in Hlen.
  cbn [String.length] in Hlen. rewrite Nat2Z.inj_succ in Hlen.
  assert (Hdigits : ∀ s1 : string,
            (String.length s1 ≤ String.length (String.String c s'))%nat →
            Atoi_digits a s1 0 = digits_value s1 0
            ∧ ∀ v, digits_value s1 0 = Some v →
                   in_range (IntSize a) v ∧ in_range (IntSize a) (- v)).
  { intros s1 Hs1. cbn [String.length] in Hs1.
    assert (Hfit : 10 ^ Z.of_nat (String.length s1) ≤ 2 ^ (IntSize a - 1))
      by (apply pow10_fits; lia).
    destruct (Atoi_digits_spec a s1 0) as [-> Hv];
      [lia|change (0 + 1) with 1; by rewrite Z.mul_1_l|].
    split; [done|]. intros v Hd. specialize (Hv v Hd).
    change (0 + 1) with 1 in Hv. rewrite Z.mul_1_l in Hv.
    unfold in_range. lia. }
  assert (Hbits : 0 < IntSize a) by (by destruct a).
  unfold decimal_in, decimal.
  destruct (bool_decide (c = "-"%char)) eqn:Hneg;
    [|destruct (bool_decide (c = "+"%char)) eqn:Hplus]; cbn [orb andb].
  - destruct (decide (s' = "")) as [->|Hs']; [done|].
    rewrite (proj2 (Z.ltb_ge _ 1))
      by (destruct s'; [done|cbn [String.length]; lia]).
    destruct (Hdigits s') as [-> Hv]; [simpl; lia|].
    destruct (digits_value s' 0) as [n|]; simpl; [|done].
    destruct (Hv n eq_refl) as [_ Hn].
    rewrite decide_True by done. by rewrite to_int_small.
  - destruct (decide (s' = "")) as [->|Hs']; [done|].
    rewrite (proj2 (Z.ltb_ge _ 1))
      by (destruct s'; [done|cbn [String.length]; lia]).
    destruct (Hdigits s') as [-> Hv]; [simpl; lia|].
    destruct (digits_value s' 0) as [n|]; simpl; [|done].
    destruct (Hv n eq_refl) as [Hn _].
    by rewrite decide_True by done.
  - destruct (Hdigits (String.String c s')) as [-> Hv]; [simpl; lia|].
    destruct (digits_value (String.String c s') 0) as [n|]; simpl; [|done].
    destruct (Hv n eq_refl) as [Hn _].
    by rewrite decide_True by done.
Qed.

End Conversions.

(** ** strconv.ParseFloat against the numerals of the specification *)

Section Floats.

Import strconv.

(** *** Rounding to the nearest float64 *)

Lemma round_even_bracket (a b : Z) :
  0 ≤ a → 0 < b →
  round_even a b = a / b ∨ round_even a b = a / b + 1.
Proof.
  intros _ _. unfold round_even.
  repeat case_match; auto.
Qed.

Lemma round_even_half (a b : Z) :
  0 ≤ a → 0 < b → 2 * Z.abs (round_even a b * b - a) ≤ b.
Proof.
  intros Ha Hb. unfold round_even.
  pose proof (Z.div_mod a b ltac:(lia)) as Hd.
  pose proof (Z.mod_pos_bound a b Hb) as Hr.
  set (q := a / b) in *. set (r := a mod b) in *.
  repeat case_match; lia.
Qed.

Lemma round_even_tie (a b : Z) :
  0 ≤ a → 0 < b →
  2 * Z.abs (round_even a b * b - a) = b → Z.even (round_even a b) = true.
Proof.
  intros Ha Hb. unfold round_even.
  pose proof (Z.div_mod a b ltac:(lia)) as Hd.
  pose proof (Z.mod_pos_bound a b Hb) as Hr.
  set (q := a / b) in *. set (r := a mod b) in *.
  repeat case_match; try lia.
  - done.
  - intros _. rewrite Z.even_add. rewrite H1. done.
Qed.

Lemma round_even_nearest (a b j : Z) :
  0 ≤ a → 0 < b →
  Z.abs (round_even a b * b - a) ≤ Z.abs (j * b - a).
Proof.
  intros Ha Hb. pose proof (round_even_half a b Ha Hb) as Hh.
  set (m := round_even a b) in *.
  destruct (decide (j = m)) as [->|Hne]; [lia|].
  assert (b ≤ Z.abs (j * b - m * b)) by nia.
  lia.
Qed.

Lemma round_grid_unfold (A D : Z) :
  0 ≤ A → 0 < D →
  ∃ m0 s0,
    0 ≤ s0
    ∧ m0 = round_even A (D * 2 ^ s0)
    ∧ (s0 = 0 ∨ 2 ^ 52 * (D * 2 ^ s0) ≤ A) ∧ 0 ≤ m0 ≤ 2 ^ 53
    ∧ (s0 = 0 ∨ 2 ^ 52 ≤ m0)
    ∧ round_grid A D = if m0 =? 2 ^ 53 then (2 ^ 52, s0 + 1) else (m0, s0).
Proof.
  intros HA HD. exists (round_even A (D * 2 ^ Z.max (Z.log2 (A / D) - 52) 0)),
    (Z.max (Z.log2 (A / D) - 52) 0).
  set (s := Z.max (Z.log2 (A / D) - 52) 0).
  assert (0 ≤ s) as Hs0 by lia.
  assert (0 < 2 ^ s) by (apply Z.pow_pos_nonneg; lia).
  assert (0 < D * 2 ^ s) as Hb by lia.
  assert (s = 0 ∨ 2 ^ 52 * (D * 2 ^ s) ≤ A) as Hlow.
  { destruct (Z.max_spec (Z.log2 (A / D) - 52) 0) as [[Hlt Hs]|[Hge Hs]];
      [by left|right]. fold s in Hs.
    set (L := Z.log2 (A / D)) in *.
    assert (0 < A / D) as Hk.
    { destruct (Z.le_gt_cases (A / D) 0) as [Hk|Hk]; [|done].
      assert (A / D = 0) as Hz
        by (pose proof (Z.div_pos A D HA HD); lia).
      unfold L in Hge. rewrite Hz in Hge. simpl in Hge. lia. }
    destruct (Z.log2_spec _ Hk) as [Hlo _]. fold L in Hlo.
    assert (2 ^ L = 2 ^ 52 * 2 ^ s) as HL
      by (rewrite <- Z.pow_add_r by lia; f_equal; lia).
    pose proof (Z.mul_div_le A D HD). nia. }
  assert (0 ≤ A / (D * 2 ^ s) < 2 ^ 53) as Hq.
  { split; [by apply Z.div_pos|]. apply Z.div_lt_upper_bound; [done|].
    destruct (Z.le_gt_cases (A / D) 0) as [Hk|Hk].
    - assert (A < D).
      { destruct (Z.lt_ge_cases A D) as [?|Hge]; [done|].
        assert (1 ≤ A / D) by (apply Z.div_le_lower_bound; lia). lia. }
      assert (1 ≤ 2 ^ 53) by done. nia.
    - destruct (Z.log2_spec _ Hk) as [_ Hhi].
      set (L := Z.log2 (A / D)) in *.
      assert (A < D * 2 ^ Z.succ L) as HA'.
      { pose proof (Z.div_mod A D ltac:(lia)).
        pose proof (Z.mod_pos_bound A D HD). nia. }
      assert (2 ^ Z.succ L ≤ 2 ^ 53 * 2 ^ s).
      { rewrite <- Z.pow_add_r by lia. apply Z.pow_le_mono_r; lia. }
      nia. }
  split; [done|]. split; [done|]. split; [done|].
  split; [|split; [|reflexivity]].
  - destruct (round_even_bracket A (D * 2 ^ s)) as [->| ->]; lia.
  - destruct Hlow as [?|Hlow]; [by left|right].
    assert (2 ^ 52 ≤ A / (D * 2 ^ s))
      by (apply Z.div_le_lower_bound; lia).
    destruct (round_even_bracket A (D * 2 ^ s)) as [->| ->]; lia.
Qed.

Lemma round_grid_value (A D m s : Z) :
  0 ≤ A → 0 < D → round_grid A D = (m, s) →
  ∃ m0 s0,
    0 ≤ s0 ∧ m0 = round_even A (D * 2 ^ s0)
    ∧ (s0 = 0 ∨ 2 ^ 52 * (D * 2 ^ s0) ≤ A)
    ∧ m * 2 ^ s = m0 * 2 ^ s0
    ∧ (m0 = 2 ^ 53 ∧ m = 2 ^ 52 ∧ s = s0 + 1 ∨ m0 < 2 ^ 53 ∧ m = m0 ∧ s = s0)
    ∧ 0 ≤ m < 2 ^ 53 ∧ 0 ≤ s ∧ (s = 0 ∨ 2 ^ 52 ≤ m).
Proof.
  intros HA HD Hr.
  destruct (round_grid_unfold A D HA HD)
    as (m0 & s0 & Hs0 & Hm0 & Hlow & Hm & Hn & Heq).
  exists m0, s0. rewrite Heq in Hr. clear Heq.
  split; [done|]. split; [done|]. split; [done|].
  destruct (m0 =? 2 ^ 53) eqn:E; injection Hr as <- <-.
  - apply Z.eqb_eq in E. split.
    + rewrite E, Z.pow_add_r by lia.
      change (2 ^ 53) with (2 ^ 52 * 2 ^ 1). lia.
    + split; [left; done|]. split; [done|]. split; [lia|]. right. lia.
  - apply Z.eqb_neq in E. split; [done|]. split; [right; lia|].
    split; [lia|]. split; [done|]. done.
Qed.

Lemma round_grid_nearest (A D m s : Z) :
  0 ≤ A → 0 < D → round_grid A D = (m, s) →
  ∀ m1 s1, 0 ≤ m1 < 2 ^ 53 → 0 ≤ s1 →
    Z.abs (m * 2 ^ s * D - A) ≤ Z.abs (m1 * 2 ^ s1 * D - A).
Proof.
  intros HA HD Hr m1 s1 Hm1 Hs1.
  destruct (round_grid_value A D m s HA HD Hr)
    as (m0 & s0 & Hs0 & Hm0 & Hlow & -> & _).
  assert (0 < 2 ^ s0) by (apply Z.pow_pos_nonneg; lia).
  assert (0 < D * 2 ^ s0) as Hb by lia.
  destruct (Z.le_gt_cases s0 s1) as [Hle|Hgt].
  - pose proof (round_even_nearest A (D * 2 ^ s0) (m1 * 2 ^ (s1 - s0)) HA Hb)
      as Hn. rewrite <- Hm0 in Hn.
    replace (m1 * 2 ^ s1) with (m1 * 2 ^ (s1 - s0) * 2 ^ s0).
    + replace (m0 * 2 ^ s0 * D) with (m0 * (D * 2 ^ s0)) by lia.
      replace (m1 * 2 ^ (s1 - s0) * 2 ^ s0 * D)
        with (m1 * 2 ^ (s1 - s0) * (D * 2 ^ s0)) by lia.
      done.
    + rewrite <- Z.mul_assoc, <- Z.pow_add_r by lia. do 2 f_equal. lia.
  - destruct Hlow as [->|Hlow]; [lia|].
    pose proof (round_even_nearest A (D * 2 ^ s0) (2 ^ 52) HA Hb) as Hn.
    rewrite <- Hm0 in Hn.
    assert (0 < 2 ^ s1) by (apply Z.pow_pos_nonneg; lia).
    assert (2 ^ s0 = 2 ^ s1 * 2 ^ (s0 - s1)) as Hs
      by (rewrite <- Z.pow_add_r by lia; f_equal; lia).
    assert (2 ≤ 2 ^ (s0 - s1)).
    { change 2 with (2 ^ 1) at 1. apply Z.pow_le_mono_r; lia. }
    assert (m1 * 2 ^ s1 ≤ 2 ^ 52 * 2 ^ s0).
    { change (2 ^ 53) with (2 * 2 ^ 52) in Hm1.
      generalize dependent (2 ^ 52). generalize dependent (2 ^ s0).
      generalize dependent (2 ^ s1). generalize dependent (2 ^ (s0 - s1)).
      intros. nia. }
    assert (m1 * 2 ^ s1 * D ≤ 2 ^ 52 * (D * 2 ^ s0)).
    { generalize dependent (2 ^ 52). generalize dependent (2 ^ s0).
      generalize dependent (2 ^ s1). intros. nia. }
    replace (m0 * 2 ^ s0 * D) with (m0 * (D * 2 ^ s0)) by lia.
    lia.
Qed.

Lemma pow2_split (x y : Z) :
  0 ≤ x ≤ y →
  2 ^ y = 2 ^ x * 2 ^ (y - x) ∧ 0 < 2 ^ x ∧ 1 ≤ 2 ^ (y - x)
  ∧ (x < y → 2 ≤ 2 ^ (y - x)).
Proof.
  intros Hxy. split; [|split; [|split]].
  - rewrite <- Z.pow_add_r by lia. f_equal. lia.
  - apply Z.pow_pos_nonneg; lia.
  - pose proof (Z.pow_pos_nonneg 2 (y - x)). lia.
  - intros Hlt. change 2 with (2 ^ 1) at 1. apply Z.pow_le_mono_r; lia.
Qed.

Lemma round_grid_exponent (A D m s t : Z) :
  0 ≤ A → 0 < D → round_grid A D = (m, s) → 0 ≤ t →
  t < s ↔ (2 ^ 54 - 1) * 2 ^ t * D ≤ 2 * A.
Proof.
  intros HA HD Hr Ht.
  destruct (round_grid_value A D m s HA HD Hr)
    as (m0 & s0 & Hs0 & Hm0 & Hlow & _ & Hfix & _).
  assert (0 < 2 ^ s0) as Hp0 by (apply Z.pow_pos_nonneg; lia).
  assert (0 < 2 ^ t) as Hpt by (apply Z.pow_pos_nonneg; lia).
  assert (0 < D * 2 ^ s0) as Hb by lia.
  pose proof (round_even_half A (D * 2 ^ s0) HA Hb) as Hh.
  pose proof (round_even_tie A (D * 2 ^ s0) HA Hb) as Htie.
  rewrite <- Hm0 in Hh, Htie.
  assert (Z.even (2 ^ 53 - 1) = false) as Hodd by done.
  change (2 ^ 54) with (4 * 2 ^ 52).
  change (2 ^ 53) with (2 * 2 ^ 52) in *.
  assert (1 ≤ 2 ^ 52) as Hc by done.
  generalize dependent (2 ^ 52). intros c. intros.
  split.
  - intros Hlt. destruct Hfix as [(-> & _ & ->)|(Hm & _ & ->)].
    + destruct (pow2_split t s0 ltac:(lia)) as (Hs & _ & Hge & _).
      rewrite Hs in *. clear Hs.
      generalize dependent (2 ^ t). generalize dependent (2 ^ (s0 - t)).
      intros. nia.
    + destruct Hlow as [->|Hlow]; [lia|].
      destruct (pow2_split t s0 ltac:(lia)) as (Hs & _ & _ & Hge).
      specialize (Hge Hlt). rewrite Hs in *. clear Hs.
      generalize dependent (2 ^ t). generalize dependent (2 ^ (s0 - t)).
      intros. nia.
  - intros Hle. destruct (Z.lt_ge_cases t s) as [?|Hge]; [done|exfalso].
    destruct Hfix as [(-> & _ & ->)|(Hm & _ & ->)].
    + destruct (pow2_split s0 t ltac:(lia)) as (Hs & _ & _ & Hge2).
      specialize (Hge2 ltac:(lia)). rewrite Hs in *. clear Hs.
      generalize dependent (2 ^ s0). generalize dependent (2 ^ (t - s0)).
      intros. nia.
    + destruct (pow2_split s0 t ltac:(lia)) as (Hs & _ & Hge1 & _).
      rewrite Hs in *. clear Hs.
      destruct (decide (m0 = 2 * c - 1)) as [->|Hne].
      * assert (2 * Z.abs ((2 * c - 1) * (D * 2 ^ s0) - A) ≠ D * 2 ^ s0)
          as Hnt by (intros Ht'; apply Htie in Ht'; congruence).
        generalize dependent (2 ^ s0). generalize dependent (2 ^ (t - s0)).
        intros. nia.
      * generalize dependent (2 ^ s0). generalize dependent (2 ^ (t - s0)).
        intros. nia.
Qed.

Lemma fraction_pos (M b k : Z) :
  0 < M → 2 ≤ b → 0 < (fraction M b k).1 ∧ 0 < (fraction M b k).2.
Proof.
  intros HM Hb. unfold fraction. destruct (0 <=? k) eqn:E; simpl.
  - apply Z.leb_le in E. pose proof (Z.pow_pos_nonneg b k). nia.
  - apply Z.leb_gt in E. pose proof (Z.pow_pos_nonneg b (- k)). lia.
Qed.

Lemma fraction_pos_den (M b k : Z) : 0 < b → 0 < (fraction M b k).2.
Proof.
  intros Hb. unfold fraction. destruct (0 <=? k) eqn:E; simpl; [done|].
  apply Z.leb_gt in E. apply Z.pow_pos_nonneg; lia.
Qed.

Lemma pow_log2_le (b k : Z) :
  2 ≤ b → 0 ≤ k → 2 ^ (k * Z.log2 b) ≤ b ^ k.
Proof.
  intros Hb Hk. destruct (Z.log2_spec b ltac:(lia)) as [Hlo _].
  rewrite Z.mul_comm, Z.pow_mul_r by (pose proof (Z.log2_nonneg b); lia).
  apply Z.pow_le_mono_l. split; [|done]. apply Z.pow_nonneg. lia.
Qed.

Lemma round64_spec (M b k : Z) :
  0 < M → 2 ≤ b →
  let N := (fraction M b k).1 in
  let D := (fraction M b k).2 in
  match round64 M b k with
  | Some (m, e) =>
      0 ≤ m < 2 ^ 53 ∧ -1074 ≤ e ≤ 971 ∧ (e = -1074 ∨ 2 ^ 52 ≤ m)
      ∧ 2 * (N * 2 ^ 1074) < (2 ^ 54 - 1) * 2 ^ 2045 * D
      ∧ ∀ m1 e1, 0 ≤ m1 < 2 ^ 53 → -1074 ≤ e1 →
          Z.abs (m * 2 ^ (e + 1074) * D - N * 2 ^ 1074)
          ≤ Z.abs (m1 * 2 ^ (e1 + 1074) * D - N * 2 ^ 1074)
  | None => (2 ^ 54 - 1) * 2 ^ 2045 * D ≤ 2 * (N * 2 ^ 1074)
  end.
Proof.
  intros HM Hb N D.
  destruct (fraction_pos M b k HM Hb) as [HN HD]. fold N in HN. fold D in HD.
  assert (0 < 2 ^ 1074) as H1074 by done.
  assert (1 ≤ Z.log2 b) as Hlb.
  { change 1 with (Z.log2 2). by apply Z.log2_le_mono. }
  unfold round64. rewrite (proj2 (Z.eqb_neq M 0)) by lia.
  destruct (1024 <=? k * Z.log2 b) eqn:Eov.
  { apply Z.leb_le in Eov. assert (0 < k) as Hk by nia.
    assert (2 ^ 1024 ≤ N).
    { unfold N, fraction. rewrite (proj2 (Z.leb_le 0 k)) by lia. simpl.
      pose proof (pow_log2_le b k Hb ltac:(lia)).
      assert (2 ^ 1024 ≤ 2 ^ (k * Z.log2 b))
        by (apply Z.pow_le_mono_r; lia).
      nia. }
    assert (D = 1) as ->.
    { unfold D, fraction. by rewrite (proj2 (Z.leb_le 0 k)) by lia. }
    assert ((2 ^ 54 - 1) * 2 ^ 2045 * 1 ≤ 2 * (2 ^ 1024 * 2 ^ 1074))
      by (by vm_compute).
    nia. }
  destruct (Z.log2 M + 1 + k * Z.log2 b <=? -1075) eqn:Ez.
  { apply Z.leb_le in Ez. pose proof (Z.log2_nonneg M).
    assert (k < 0) as Hk by nia.
    assert (N = M ∧ D = b ^ (- k)) as [HN' HD'].
    { unfold N, D, fraction. by rewrite (proj2 (Z.leb_gt 0 k)) by lia. }
    destruct (Z.log2_spec M HM) as [_ HMhi].
    pose proof (pow_log2_le b (- k) Hb ltac:(lia)) as Hp.
    assert (2 ^ (Z.succ (Z.log2 M) + 1075) ≤ 2 ^ (- k * Z.log2 b))
      by (apply Z.pow_le_mono_r; lia).
    assert (2 * (N * 2 ^ 1074) < D) as Hsmall.
    { rewrite Z.pow_add_r in * by lia.
      change (2 ^ 1075) with (2 * 2 ^ 1074) in *. rewrite HN', HD'.
      generalize dependent (2 ^ Z.succ (Z.log2 M)).
      generalize dependent (2 ^ 1074). intros. nia. }
    split; [done|]. split; [done|]. split; [by left|]. split.
    - assert (1 ≤ (2 ^ 54 - 1) * 2 ^ 2045) by done.
      generalize dependent ((2 ^ 54 - 1) * 2 ^ 2045). intros.
      generalize dependent (2 ^ 1074). intros. nia.
    - intros m1 e1 Hm1 He1.
      assert (0 < 2 ^ (e1 + 1074)) as Hp1 by (apply Z.pow_pos_nonneg; lia).
      rewrite Z.mul_0_l.
      destruct (decide (m1 = 0)) as [->|?]; [lia|].
      assert (1 ≤ m1 * 2 ^ (e1 + 1074)) as Hg by nia.
      generalize dependent (m1 * 2 ^ (e1 + 1074)). intros G HG.
      assert (D ≤ G * D) by nia. lia. }
  subst N D. destruct (fraction M b k) as [N D]. simpl in *.
  destruct (round_grid (N * 2 ^ 1074) D) as [m s] eqn:Er.
  assert (0 ≤ N * 2 ^ 1074) as HA by lia.
  pose proof (round_grid_exponent _ _ _ _ 2045 HA HD Er ltac:(lia)) as Hex.
  destruct (round_grid_value _ _ _ _ HA HD Er)
    as (m0 & s0 & _ & _ & _ & _ & _ & Hm & Hs & Hn).
  destruct (2045 <? s) eqn:Es.
  - apply Z.ltb_lt in Es. by apply Hex.
  - apply Z.ltb_ge in Es.
    split; [done|]. split; [lia|]. split; [destruct Hn; [left|right]; lia|].
    split.
    + destruct (Z.lt_ge_cases (2 * (N * 2 ^ 1074))
                  ((2 ^ 54 - 1) * 2 ^ 2045 * D)) as [?|Hge]; [done|].
      apply Hex in Hge. lia.
    + intros m1 e1 Hm1 He1.
      replace (s - 1074 + 1074) with s by lia.
      apply (round_grid_nearest _ _ _ _ HA HD Er); lia.
Qed.

(** *** The scanner on a numeral *)

Ltac by_byte c :=
  destruct c as [[] [] [] [] [] [] [] []]; vm_compute; try done; auto.

Lemma digit_char (c : ascii) :
  strconv.is_digit c = true →
  bool_decide (c = "_"%char) = false ∧ bool_decide (c = "."%char) = false
  ∧ bool_decide (c = "+"%char) = false ∧ bool_decide (c = "-"%char) = false
  ∧ bool_decide (c = "i"%char) = false ∧ bool_decide (c = "I"%char) = false
  ∧ bool_decide (c = "n"%char) = false ∧ bool_decide (c = "N"%char) = false
  ∧ bool_decide (c = "e"%char) = false ∧ bool_decide (c = "E"%char) = false
  ∧ (lower c =? 120) = false ∧ (fold_case c =? 105) = false.
Proof. by_byte c. Qed.

Lemma zero_char (c : ascii) :
  bool_decide (c = "0"%char) = true → byte_val c - 48 = 0.
Proof. intros ->%bool_decide_eq_true. done. Qed.

Lemma exp_char (c : ascii) :
  bool_decide (c = "e"%char) || bool_decide (c = "E"%char) = true →
  (lower c =? 101) = true ∧ strconv.is_digit c = false
  ∧ bool_decide (c = "_"%char) = false ∧ bool_decide (c = "."%char) = false
  ∧ (lower c =? 120) = false.
Proof. by_byte c. Qed.

Lemma readFloat_digits_run (s : string) :
  ∀ ds r st,
    digits_prefix s = (ds, r) → scan_inv st →
    ∃ st',
      readFloat_digits 10 s st = readFloat_digits 10 r st'
      ∧ scan_inv st'
      ∧ digits_value ds (mantissa st) = Some (mantissa st')
      ∧ dp st' - nd st' = dp st - nd st - Z.of_nat (String.length ds)
      ∧ sawdot st' = sawdot st
      ∧ underscores st' = underscores st
      ∧ sawdigits st' = sawdigits st || negb (bool_decide (ds = "")).
Proof.
  induction s as [|c s IH]; intros ds r st Hp Hinv; simpl in Hp.
  - injection Hp as <- <-. exists st. rewrite bool_decide_eq_true_2, orb_false_r by done.
    simpl. repeat split; try done; try apply Hinv; lia.
  - destruct (strconv.is_digit c) eqn:Hd.
    + destruct (digits_prefix s) as [ds' r'] eqn:Hp'. injection Hp as <- <-.
      destruct (digit_char c Hd) as (Hu & Hdot & _).
      cbn [readFloat_digits]. rewrite Hu, Hdot, Hd.
      destruct Hinv as [Hnd Hm].
      destruct (bool_decide (c = "0"%char) && (nd st =? 0)) eqn:Hz.
      * apply andb_true_iff in Hz as [Hc Hn]. apply Z.eqb_eq in Hn.
        edestruct (IH ds' r') as (st' & Heq & Hinv' & Hv & Hdp & Hsd & Hus & Hsg);
          [done| |].
        2:{ exists st'. rewrite Heq. split; [done|]. split; [done|].
            cbn [digits_value]. rewrite Hd. simpl in *.
            rewrite (zero_char c Hc), (Hm Hn). rewrite (Hm Hn) in Hv.
            split; [done|]. split; [lia|]. split; [done|]. split; [done|].
            rewrite Hsg. by rewrite orb_true_r. }
        split; simpl; [done|]. auto.
      * edestruct (IH ds' r') as (st' & Heq & Hinv' & Hv & Hdp & Hsd & Hus & Hsg);
          [done| |].
        2:{ exists st'. rewrite Heq. split; [done|]. split; [done|].
            cbn [digits_value]. rewrite Hd. simpl in *.
            split; [done|]. split; [lia|]. split; [done|]. split; [done|].
            rewrite Hsg. by rewrite orb_true_r. }
        split; simpl; lia.
    + injection Hp as <- <-. exists st. rewrite bool_decide_eq_true_2, orb_false_r by done.
    simpl. repeat split; try done; try apply Hinv; lia.
Qed.

Lemma readFloat_digits_stop (c : ascii) (s : string) (st : floatScan) :
  bool_decide (c = "e"%char) || bool_decide (c = "E"%char) = true →
  readFloat_digits 10 (String.String c s) st = (st, String.String c s).
Proof.
  intros (_ & Hd & Hu & Hdot & _)%exp_char.
  cbn [readFloat_digits]. by rewrite Hu, Hdot, Hd.
Qed.

Lemma readFloat_exponent_digits (s : string) :
  ∀ acc v us, digits_value s acc = Some v →
    readFloat_exponent s acc us = (v, us, "").
Proof.
  induction s as [|c s IH]; intros acc v us Hv; simpl in Hv.
  - by injection Hv as ->.
  - destruct (strconv.is_digit c) eqn:Hd; [|done].
    destruct (digit_char c Hd) as (Hu & _).
    cbn [readFloat_exponent]. rewrite Hu, Hd. by apply IH.
Qed.

Lemma digits_value_app (s1 : string) :
  ∀ s2 acc v, digits_value s1 acc = Some v →
    digits_value (String.append s1 s2) acc = digits_value s2 v.
Proof.
  induction s1 as [|c s1 IH]; intros s2 acc v Hv; simpl in *.
  - by injection Hv as ->.
  - destruct (strconv.is_digit c); [|done]. by apply IH.
Qed.

Lemma digits_prefix_digits (s : string) :
  ∀ ds r acc, digits_prefix s = (ds, r) → is_Some (digits_value ds acc).
Proof.
  induction s as [|c s IH]; intros ds r acc Hp; simpl in Hp.
  - injection Hp as <- <-. by eexists.
  - destruct (strconv.is_digit c) eqn:Hd.
    + destruct (digits_prefix s) as [ds' r'] eqn:Hp'. injection Hp as <- <-.
      simpl. rewrite Hd. by eapply IH.
    + injection Hp as <- <-. by eexists.
Qed.

Lemma digits_prefix_head (s ds r : string) :
  digits_prefix s = (ds, r) → ds ≠ "" →
  ∃ c s', s = String.String c s' ∧ strconv.is_digit c = true.
Proof.
  destruct s as [|c s]; simpl.
  - by intros [= <- <-].
  - destruct (strconv.is_digit c) eqn:Hd; [by eexists _, _|].
    by intros [= <- <-].
Qed.

Lemma digits_prefix_empty (s ds r : string) :
  digits_prefix s = (ds, r) → ds = "" → r = s.
Proof.
  destruct s as [|c s]; simpl.
  - by intros [= <- <-].
  - destruct (strconv.is_digit c); [|by intros [= <- <-]].
    destruct (digits_prefix s). by intros [= <- <-].
Qed.

Lemma decimal_exponent (s4 : string) (E : Z) (us : bool) :
  decimal s4 = Some E →
  ∃ c4 s5 v,
    s4 = String.String c4 s5
    ∧ let plus := bool_decide (c4 = "+"%char) in
      let minus := bool_decide (c4 = "-"%char) in
      let s6 := if plus || minus then s5 else s4 in
      (∃ c6 s7, s6 = String.String c6 s7 ∧ strconv.is_digit c6 = true)
      ∧ readFloat_exponent s6 0 us = (v, us, "")
      ∧ E = v * (if minus then -1 else 1).
Proof.
  unfold decimal. destruct s4 as [|c4 s5]; [done|].
  assert (Hhead : ∀ s v, digits_value s 0 = Some v → s ≠ "" →
            ∃ c6 s7, s = String.String c6 s7 ∧ strconv.is_digit c6 = true).
  { intros [|c6 s7] v Hv Hne; [done|]. simpl in Hv.
    destruct (strconv.is_digit c6) eqn:Hd; [by eexists _, _|done]. }
  destruct (bool_decide (c4 = "-"%char)) eqn:Hm.
  { destruct (decide (s5 = "")) as [|Hne]; [done|].
    destruct (digits_value s5 0) as [v|] eqn:Hv; [|done].
    intros [= <-]. exists c4, s5, v. split; [done|]. cbn zeta.
    rewrite Hm, orb_true_r. split; [by eapply Hhead|].
    split; [by apply readFloat_exponent_digits|lia]. }
  destruct (bool_decide (c4 = "+"%char)) eqn:Hp.
  { destruct (decide (s5 = "")) as [|Hne]; [done|].
    intros Hv. exists c4, s5, E. split; [done|]. cbn zeta.
    rewrite Hm, Hp. simpl. split; [by eapply Hhead|].
    split; [by apply readFloat_exponent_digits|lia]. }
  intros Hv. exists c4, s5, E. split; [done|]. cbn zeta.
  rewrite Hm, Hp. cbn [orb]. split; [by eapply Hhead|].
  split; [by apply readFloat_exponent_digits|lia].
Qed.

Lemma readFloat_number_literal (s : string) (neg : bool) (s1 : string)
    (M E : Z) :
  float_number s1 = Some (M, E) →
  readFloat_number s neg s1
  = Some (M, if M =? 0 then 0 else E, neg, false, "")
  ∧ ∃ c1 s1', s1 = String.String c1 s1'
              ∧ (strconv.is_digit c1 = true ∨ c1 = "."%char).
Proof.
  unfold float_number.
  destruct (digits_prefix s1) as [ip s2] eqn:Hip.
  set (init := FloatScan 0 0 0 false false false).
  assert (scan_inv init) as Hinit by (split; simpl; [lia|done]).
  destruct (readFloat_digits_run s1 ip s2 init Hip Hinit)
    as (st1 & Hrun1 & Hinv1 & Hv1 & _ & Hsd1 & Hus1 & Hsg1).
  simpl in Hv1, Hsd1, Hus1, Hsg1.
  (* the state after an optional fractional part *)
  assert (∀ fp s3,
            match s2 with
            | String.String c s2' =>
                if bool_decide (c = "."%char) then digits_prefix s2'
                else (EmptyString, s2)
            | EmptyString => (EmptyString, s2)
            end = (fp, s3) →
            ∃ st2,
              readFloat_digits 10 s1 init = readFloat_digits 10 s3 st2
              ∧ digits_value (String.append ip fp) 0 = Some (mantissa st2)
              ∧ (if sawdot st2 then dp st2 else nd st2) - nd st2
                = - Z.of_nat (String.length fp)
              ∧ underscores st2 = false
              ∧ sawdigits st2
                = negb (bool_decide (ip = "")) || negb (bool_decide (fp = "")))
    as Hfrac.
  { intros fp s3 Hfp. destruct s2 as [|c s2'].
    - injection Hfp as <- <-. exists st1. rewrite Hrun1.
      split; [done|]. split.
      { rewrite (digits_value_app _ "" _ _ Hv1). done. }
      rewrite Hsd1, Hus1, Hsg1. simpl. split; [lia|].
      split; [done|]. by rewrite orb_false_r.
    - destruct (bool_decide (c = "."%char)) eqn:Hdot.
      + apply bool_decide_eq_true in Hdot as ->.
        set (st1' := FloatScan (mantissa st1) (nd st1) (nd st1) true
                       (sawdigits st1) (underscores st1)).
        assert (scan_inv st1') as Hinv1' by apply Hinv1.
        destruct (readFloat_digits_run s2' fp s3 st1' Hfp Hinv1')
          as (st2 & Hrun2 & _ & Hv2 & Hdp2 & Hsd2 & Hus2 & Hsg2).
        simpl in Hv2, Hdp2, Hsd2, Hus2, Hsg2.
        exists st2. split.
        { rewrite Hrun1. cbn [readFloat_digits].
          rewrite Hsd1. simpl. exact Hrun2. }
        split; [by rewrite (digits_value_app _ _ _ _ Hv1)|].
        rewrite Hsd2. split; [lia|]. split; [congruence|].
        by rewrite Hsg2, Hsg1.
      + injection Hfp as <- <-. exists st1. rewrite Hrun1.
        split; [done|]. split.
        { rewrite (digits_value_app _ "" _ _ Hv1). done. }
        rewrite Hsd1, Hus1, Hsg1. simpl. split; [lia|].
        split; [done|]. by rewrite orb_false_r. }
  destruct (match s2 with
            | String.String c s2' =>
                if bool_decide (c = "."%char) then digits_prefix s2'
                else (EmptyString, s2)
            | EmptyString => (EmptyString, s2)
            end) as [fp s3] eqn:Hfp.
  destruct (Hfrac fp s3 eq_refl)
    as (st2 & Hrun & Hm & Hdp & Hus & Hsg). clear Hfrac.
  destruct (decide (String.append ip fp = "")) as [|Hne]; [done|].
  rewrite Hm. cbn [mbind option_bind].
  intros HE.
  (* the numeral starts with a digit or the point *)
  assert (∃ c1 s1', s1 = String.String c1 s1'
                    ∧ (strconv.is_digit c1 = true ∨ c1 = "."%char)) as Hstart.
  { destruct (decide (ip = "")) as [->|Hip'].
    - pose proof (digits_prefix_empty _ _ _ Hip eq_refl) as ->.
      destruct s1 as [|c s2']; [by injection Hfp as <- <-|].
      destruct (bool_decide (c = "."%char)) eqn:Hdot.
      + apply bool_decide_eq_true in Hdot as ->. eexists _, _. eauto.
      + by injection Hfp as <- <-.
    - destruct (digits_prefix_head _ _ _ Hip Hip') as (c & s' & -> & Hd).
      eexists _, _. eauto. }
  split; [|done].
  assert (sawdigits st2 = true) as Hsaw.
  { rewrite Hsg. destruct ip, fp; done. }
  (* no base prefix *)
  assert (match s1 with
          | String.String c0 (String.String c1 (String.String _ _)) =>
              bool_decide (c0 = "0"%char) && (lower c1 =? 120)
          | _ => false
          end = false) as Hhex.
  { destruct s1 as [|c0 [|c1 [|c2 s1']]]; try done.
    apply andb_false_iff.
    destruct (bool_decide (c0 = "0"%char)) eqn:Hc0; [right|by left].
    apply bool_decide_eq_true in Hc0 as ->.
    simpl in Hip. destruct (strconv.is_digit c1) eqn:Hd1.
    { by destruct (digit_char c1 Hd1) as (_&_&_&_&_&_&_&_&_&_&?&_). }
    injection Hip as <- <-.
    destruct (bool_decide (c1 = "."%char)) eqn:Hdot.
    { by apply bool_decide_eq_true in Hdot as ->. }
    injection Hfp as <- <-.
    destruct (bool_decide (c1 = "e"%char) || bool_decide (c1 = "E"%char))
      eqn:He; [|by destruct (digits_value _ _)].
    by destruct (exp_char c1 He) as (_&_&_&_&?). }
  unfold readFloat_number. rewrite Hhex. cbn zeta. fold init. rewrite Hrun.
  destruct s3 as [|c3 s4].
  - cbn [readFloat_digits]. rewrite Hsaw, Hus. cbn [negb andb].
    injection HE as <- <-.
    repeat f_equal. destruct (mantissa st2 =? 0); lia.
  - destruct (bool_decide (c3 = "e"%char) || bool_decide (c3 = "E"%char))
      eqn:He; [|done].
    rewrite (readFloat_digits_stop _ _ _ He). rewrite Hsaw. cbn [negb].
    destruct (exp_char c3 He) as (-> & _).
    destruct (decimal s4) as [E'|] eqn:Hdec; [|done].
    cbn [mbind option_bind] in HE. injection HE as <- <-.
    destruct (decimal_exponent s4 E' (underscores st2) Hdec)
      as (c4 & s5 & v & -> & (c6 & s7 & Hs6 & Hd6) & Hexp & ->).
    cbn zeta in Hs6, Hexp. rewrite Hs6 in Hexp |- *. rewrite Hd6, Hexp, Hus.
    cbn [negb andb]. repeat f_equal.
    destruct (mantissa st2 =? 0); lia.
Qed.

Lemma dot_char :
  bool_decide ("."%char = "+"%char) = false
  ∧ bool_decide ("."%char = "-"%char) = false.
Proof. done. Qed.

Lemma special_numeral (c : ascii) (s' : string) :
  let s := String.String c s' in
  let signed := bool_decide (c = "-"%char) || bool_decide (c = "+"%char) in
  (∃ c1 s1', (if signed then s' else s) = String.String c1 s1'
             ∧ (strconv.is_digit c1 = true ∨ c1 = "."%char)) →
  special s = None.
Proof.
  intros s signed (c1 & s1' & Hs1 & Hc1). unfold special, s.
  assert ((fold_case c1 =? 105) = false) as Hi.
  { destruct Hc1 as [Hd| ->]; [|done].
    by destruct (digit_char c1 Hd) as (_&_&_&_&_&_&_&_&_&_&_&?). }
  destruct (bool_decide (c = "-"%char)) eqn:Hm;
    [|destruct (bool_decide (c = "+"%char)) eqn:Hp]; subst signed;
    cbn [orb] in *.
  - subst s'. rewrite (bool_decide_eq_false_2 (c = "+"%char)).
    + cbn [orb]. cbn [commonPrefixLenIgnoreCase].
      change (byte_val "i") with 105. by rewrite Hi.
    + apply bool_decide_eq_true in Hm as ->. done.
  - subst s'. cbn [orb]. cbn [commonPrefixLenIgnoreCase].
    change (byte_val "i") with 105. by rewrite Hi.
  - injection Hs1 as -> ->.
    assert (bool_decide (c1 = "i"%char) = false
            ∧ bool_decide (c1 = "I"%char) = false
            ∧ bool_decide (c1 = "n"%char) = false
            ∧ bool_decide (c1 = "N"%char) = false) as (-> & -> & -> & ->).
    { destruct Hc1 as [Hd| ->]; [|done].
      destruct (digit_char c1 Hd) as (_&_&_&_&?&?&?&?&_). done. }
    done.
Qed.

Lemma round64_zero (b k k' : Z) : round64 0 b k = round64 0 b k'.
Proof. done. Qed.

Lemma ParseFloat_literal (s : string) (neg : bool) (M E : Z) :
  float_literal s = Some (neg, M, E) →
  ParseFloat s
  = match round64 M 10 E with
    | Some (m, e) => (float64 neg m e, None)
    | None =>
        (if neg then neg_infinity else infinity, Some strconv.ErrRange)
    end.
Proof.
  unfold float_literal. destruct s as [|c s']; [done|].
  set (s1 := if bool_decide (c = "-"%char) || bool_decide (c = "+"%char)
             then s' else String.String c s').
  destruct (float_number s1) as [[M' E']|] eqn:Hnum; [|done].
  cbn [mbind option_bind]. intros [= <- <- <-].
  destruct (readFloat_number_literal (String.String c s')
              (bool_decide (c = "-"%char)) s1 M' E' Hnum) as [Hread Hstart].
  unfold ParseFloat. rewrite (special_numeral c s' Hstart).
  unfold readFloat. cbn zeta.
  replace (if bool_decide (c = "+"%char) || bool_decide (c = "-"%char)
           then s' else String.String c s') with s1
    by (unfold s1; by rewrite orb_comm).
  rewrite Hread. cbn [negb]. rewrite bool_decide_eq_true_2 by done.
  cbn [negb].
  destruct (M' =? 0) eqn:HM; [|done].
  apply Z.eqb_eq in HM as ->. by rewrite (round64_zero 10 0 E').
Qed.

Lemma float_literal_nonneg (s : string) (neg : bool) (M E : Z) :
  float_literal s = Some (neg, M, E) → 0 ≤ M.
Proof.
  unfold float_literal. destruct s as [|c s']; [done|].
  destruct (float_number _) as [[M' E']|] eqn:Hnum; [|done].
  cbn [mbind option_bind]. intros [= <- <- <-].
  unfold float_number in Hnum.
  destruct (digits_prefix _) as [ip s2].
  destruct (match s2 with
            | String.String c0 s2' =>
                if bool_decide (c0 = "."%char) then digits_prefix s2'
                else (EmptyString, s2)
            | EmptyString => (EmptyString, s2)
            end) as [fp s3].
  destruct (decide (String.append ip fp = "")); [done|].
  destruct (digits_value (String.append ip fp) 0) as [M|] eqn:HM; [|done].
  cbn [mbind option_bind] in Hnum.
  destruct (match s3 with
            | EmptyString => Some 0
            | String.String c0 s4 =>
                if bool_decide (c0 = "e"%char) || bool_decide (c0 = "E"%char)
                then decimal s4 else None
            end); [|done].
  cbn [mbind option_bind] in Hnum. injection Hnum as <- _.
  by apply digits_value_ge in HM.
Qed.

(** *** The rounding in terms of rational values *)

Lemma inject_Z_pos (z : Z) : 0 < z → (0 < inject_Z z)%Q.
Proof. intros Hz. change (inject_Z 0 < inject_Z z)%Q. by rewrite <- Zlt_Qlt. Qed.

Lemma Qscale_fraction (M b k : Z) :
  0 < b →
  (Qscale M b k * inject_Z (fraction M b k).2
   == inject_Z (fraction M b k).1)%Q.
Proof.
  intros Hb. unfold Qscale, fraction. destruct (0 <=? k) eqn:E; simpl.
  - apply Z.leb_le in E. rewrite inject_Z_mult, Zpower_Qpower by done.
    apply Qmult_1_r.
  - apply Z.leb_gt in E. rewrite Zpower_Qpower by lia.
    rewrite Qpower_opp. rewrite <- Qmult_assoc.
    rewrite Qmult_inv_r, Qmult_1_r; [done|].
    apply Qpower_not_0. intros H.
    apply (Qlt_not_eq 0 (inject_Z b)); [by apply inject_Z_pos|by symmetry].
Qed.

Lemma Qscale_units (m e : Z) :
  -1074 ≤ e →
  (Qscale m 2 e * inject_Z (2 ^ 1074) == inject_Z (m * 2 ^ (e + 1074)))%Q.
Proof.
  intros He. unfold Qscale.
  rewrite inject_Z_mult, !Zpower_Qpower by lia.
  rewrite Qpower_plus by discriminate. symmetry. apply Qmult_assoc.
Qed.

Lemma Qabs_scaled (x c : Q) (z : Z) :
  (0 < c)%Q → (x * c == inject_Z z)%Q →
  (Qabs x * c == inject_Z (Z.abs z))%Q.
Proof.
  intros Hc Hz. rewrite <- (Qabs_pos c) at 1 by by apply Qlt_le_weak.
  rewrite <- Qabs_Qmult, Hz. done.
Qed.

Lemma Qscale_gap (M b k m e : Z) :
  0 < b → -1074 ≤ e →
  let N := (fraction M b k).1 in
  let D := (fraction M b k).2 in
  (Qabs (Qscale m 2 e - Qscale M b k) * (inject_Z D * inject_Z (2 ^ 1074))
   == inject_Z (Z.abs (m * 2 ^ (e + 1074) * D - N * 2 ^ 1074)))%Q.
Proof.
  intros Hb He N D. pose proof (Qscale_fraction M b k Hb) as Hx.
  pose proof (Qscale_units m e He) as Hf. fold N D in Hx.
  pose proof (fraction_pos_den M b k Hb) as HD. fold D in HD.
  apply Qabs_scaled.
  - apply Qmult_lt_0_compat; apply inject_Z_pos; [done|].
    apply Z.pow_pos_nonneg; lia.
  - unfold Z.sub. rewrite inject_Z_plus, inject_Z_opp.
    rewrite (inject_Z_mult _ D), (inject_Z_mult N).
    rewrite <- Hx, <- Hf. ring.
Qed.

Lemma round64_nearest (M b k : Z) :
  0 ≤ M → 2 ≤ b →
  let x := Qscale M b k in
  match round64 M b k with
  | Some (m, e) =>
      (x < float64_limit)%Q ∧ binary64 m e
      ∧ ∀ m1 e1, binary64 m1 e1 →
          (Qabs (Qscale m 2 e - x) <= Qabs (Qscale m1 2 e1 - x))%Q
  | None => (float64_limit <= x)%Q
  end.
Proof.
  intros HM Hb x.
  assert (0 < inject_Z (2 ^ 1074))%Q as HU
    by (apply inject_Z_pos, Z.pow_pos_nonneg; lia).
  destruct (decide (M = 0)) as [->|HM0].
  { change (round64 0 b k) with (Some (0, -1074)).
    assert (x == 0)%Q as Hx by (unfold x, Qscale; apply Qmult_0_l).
    split.
    { rewrite Hx. apply inject_Z_pos. by vm_compute. }
    split; [split; [by vm_compute|lia]|].
    intros m1 e1 _. rewrite Hx. unfold Qscale at 1.
    rewrite Qmult_0_l. apply Qabs_nonneg. }
  pose proof (round64_spec M b k ltac:(lia) Hb) as Hr. cbn zeta in Hr.
  pose proof (Qscale_fraction M b k ltac:(lia)) as Hx. fold x in Hx.
  destruct (fraction_pos M b k ltac:(lia) Hb) as [HN HD].
  set (N := (fraction M b k).1) in *. set (D := (fraction M b k).2) in *.
  assert (0 < inject_Z D)%Q as HDq by by apply inject_Z_pos.
  assert (Hlim : ∀ z : Z,
            (float64_limit * (inject_Z D * inject_Z (2 ^ 1074) * 2)
             == inject_Z ((2 ^ 54 - 1) * 2 ^ 2045 * D))%Q).
  { intros _. unfold float64_limit.
    assert ((2 ^ 54 - 1) * 2 ^ 2045 = (2 ^ 1024 - 2 ^ 970) * 2 ^ 1074 * 2)
      as -> by (by vm_compute).
    rewrite !inject_Z_mult. change (inject_Z 2) with 2%Q. ring. }
  assert (Hxs : (x * (inject_Z D * inject_Z (2 ^ 1074) * 2)
                 == inject_Z (2 * (N * 2 ^ 1074)))%Q).
  { rewrite !inject_Z_mult, <- Hx. change (inject_Z 2) with 2%Q. ring. }
  assert (0 < inject_Z D * inject_Z (2 ^ 1074) * 2)%Q as Hc.
  { apply Qmult_lt_0_compat; [apply Qmult_lt_0_compat|]; [exact HDq|exact HU|reflexivity]. }
  destruct (round64 M b k) as [[m e]|].
  - destruct Hr as (Hm & He & _ & Hlt & Hnear).
    split; [|split; [done|]].
    + apply (proj1 (Qmult_lt_r _ _ _ Hc)). rewrite Hxs, (Hlim 0).
      by rewrite <- Zlt_Qlt.
    + intros m1 e1 [Hm1 He1].
      apply (proj1 (Qmult_le_r _ _ (inject_Z D * inject_Z (2 ^ 1074))
                      ltac:(by apply Qmult_lt_0_compat))).
      pose proof (Qscale_gap M b k m e ltac:(lia) ltac:(lia)) as G0.
      pose proof (Qscale_gap M b k m1 e1 ltac:(lia) ltac:(lia)) as G1.
      cbn zeta in G0, G1. fold N D x in G0, G1. rewrite G0, G1.
      rewrite <- Zle_Qle. apply Hnear; lia.
  - apply (proj1 (Qmult_le_r _ _ _ Hc)). rewrite Hxs, (Hlim 0).
    by rewrite <- Zle_Qle.
Qed.

Lemma Qabs_nearest_exact (f g x : Q) :
  (Qabs (f - x) <= Qabs (g - x))%Q → (g == x)%Q → (f == x)%Q.
Proof.
  intros Hle Hg.
  assert (Qabs (g - x) == 0)%Q as Hz.
  { rewrite Hg. unfold Qminus. by rewrite Qplus_opp_r. }
  rewrite Hz in Hle. apply Qabs_Qle_condition in Hle as [Hlo Hhi].
  assert (f - x == 0)%Q as Hd by (by apply Qle_antisym).
  assert (f == (f - x) + x)%Q as -> by ring. rewrite Hd. apply Qplus_0_l.
Qed.

End Floats.

(** * The claims *)

Section Claims.

Variable arch : Arch.
Variables TrimSpace ToLower : string → string.
Variable ParseFloat : strconv.Parser float.

(** ** Sequence extraction *)

(** C1. For every request, key, default [d] and parser, [Slice]
    returns a sequence as long as the raw values recorded for the key;
    position [i] holds the parsed value of raw value [i] when the
    parser succeeds on it and [d] when it fails, in the order of the
    raw values. *)
Theorem Slice_positional {T : Type} `{GoZero T} (r : Request)
    (key : string) (d : T) (parser : strconv.Parser T) (h : heap) :
  ∃ xs h',
    query.Slice r key d parser h = Ok xs h'
    ∧ length xs = length (raw r key)
    ∧ ∀ i : nat,
        xs !! i
        = (λ v, if strconv.failed (parser v) then d else (parser v).1)
            <$> raw r key !! i.
Proof.
  eexists _, _. split; [apply Slice_run|].
  split; [by rewrite length_map|].
  intros i. by rewrite list_lookup_fmap.
Qed.

(** ** Scalar extraction *)

Lemma scalar_contract_of_run {T : Type}
    (extract : Request → string → T → Go T) (parser : strconv.Parser T)
    (x y : T) :
  x ≠ y →
  (∀ r key d h,
     extract r key d h
     = Ok (scalar parser d (first_raw r key)) (with_parse r h)) →
  scalar_contract extract parser.
Proof.
  intros Hxy Hrun r key. split.
  { intros d h. by rewrite Hrun. }
  unfold falls_back. split.
  - intros Hd.
    assert (Hs : ∀ d, scalar parser d (first_raw r key) = d).
    { intros d. specialize (Hd d heap0). rewrite Hrun in Hd.
      by injection Hd. }
    destruct (first_raw r key) as [s|] eqn:E.
    + destruct (decide (s = "")) as [->|Hne]; [by right; left|].
      right; right. exists s. split; [done|].
      destruct (strconv.failed (parser s)) eqn:Hf; [done|].
      pose proof (Hs x) as Hx. pose proof (Hs y) as Hy.
      unfold scalar, or_default in Hx, Hy.
      rewrite decide_False, Hf in Hx, Hy by done. congruence.
    + left. by apply first_raw_absent.
  - intros Hfb d h. rewrite Hrun. simpl. f_equal.
    destruct Hfb as [Habs|[Hemp|(s & Hs & Hf)]].
    + apply first_raw_absent in Habs. by rewrite Habs.
    + by rewrite Hemp.
    + rewrite Hs. unfold scalar, or_default. rewrite Hf.
      by destruct (decide (s = "")).
Qed.

(** C2. [String], [Int], [Int64], [Float64] and [Bool] return the
    parsed value of the first raw value recorded for the key, and
    return the default exactly when the key is absent, the first raw
    value is the empty string, or its parsing fails. *)
Theorem scalar_extraction :
  scalar_contract query.String verbatim
  ∧ scalar_contract (query.Int arch) (strconv.Atoi arch)
  ∧ scalar_contract (query.Int64 arch) (λ s, strconv.ParseInt arch s 64)
  ∧ scalar_contract (query.Float64 ParseFloat) ParseFloat
  ∧ scalar_contract (query.Bool TrimSpace ToLower)
      (query.parseBool TrimSpace ToLower).
Proof.
  refine (conj _ (conj _ (conj _ (conj _ _)))).
  - apply (scalar_contract_of_run _ _ "" "x"); [done|apply String_run].
  - apply (scalar_contract_of_run _ _ 0 1); [done|apply Int_run].
  - apply (scalar_contract_of_run _ _ 0 1); [done|apply Int64_run].
  - apply (scalar_contract_of_run _ _ 0%float 1%float); [|apply Float64_run].
    intros Heq. apply (f_equal PrimFloat.classify) in Heq.
    vm_compute in Heq. discriminate.
  - apply (scalar_contract_of_run _ _ false true); [done|apply Bool_run].
Qed.

(** ** The boolean parser *)

Lemma words_disjoint (w : string) :
  w ∈ true_words → w ∉ false_words.
Proof.
  unfold true_words. intros Ht.
  repeat (apply elem_of_cons in Ht as [->|Ht]);
    try (by apply elem_of_nil in Ht);
    intros Hf; apply (bool_decide_pack _) in Hf; by vm_compute in Hf.
Qed.

(** C4. The boolean parser trims and lowercases its input, then
    returns true exactly for the words true, 1, yes, on, y, false
    exactly for false, 0, no, off, n, and fails on every other string;
    so [Bool] returns the default for every first value outside these
    words and never finds a truth value by other means. *)
Theorem parseBool_vocabulary :
  (∀ s : string,
     let w := ToLower (TrimSpace s) in
     (query.parseBool TrimSpace ToLower s = (true, None) ↔ w ∈ true_words)
     ∧ (query.parseBool TrimSpace ToLower s = (false, None)
        ↔ w ∈ false_words)
     ∧ (strconv.failed (query.parseBool TrimSpace ToLower s) = true
        ↔ (w ∉ true_words) ∧ (w ∉ false_words)))
  ∧ (∀ (r : Request) (key : string) (d : bool) (h : heap),
       result (query.Bool TrimSpace ToLower r key d h)
       = Some (match first_raw r key with
               | None => d
               | Some v =>
                   if decide (v = "") then d
                   else if decide (ToLower (TrimSpace v) ∈ true_words)
                   then true
                   else if decide (ToLower (TrimSpace v) ∈ false_words)
                   then false
                   else d
               end)).
Proof.
  split.
  - intros s w. unfold query.parseBool, strconv.failed.
    fold true_words false_words w.
    pose proof (words_disjoint w) as Hdis.
    repeat case_bool_decide; simpl; intuition (try congruence; try done).
  - intros r key d h. rewrite Bool_run. simpl. f_equal.
    unfold scalar, or_default, strconv.failed, query.parseBool.
    fold true_words false_words.
    destruct (first_raw r key) as [v|]; [|done].
    destruct (decide (v = "")); [done|].
    repeat case_bool_decide; simpl; repeat case_decide; done.
Qed.

(** ** Typed sequence extraction *)

(** C5. [Ints], [Int64s], [Float64s] and [Bools] return exactly what
    [Slice] returns with the parser of the corresponding scalar
    extractor; they have no extraction logic of their own, so each
    returns the raw values converted one by one. *)
Theorem typed_slices_are_Slice (r : Request) (key : string) (h : heap) :
  (∀ d, query.Ints arch r key d h
        = query.Slice r key d (strconv.Atoi arch) h
        ∧ result (query.Ints arch r key d h)
          = Some (map (λ v, or_default d (strconv.Atoi arch v)) (raw r key)))
  ∧ (∀ d, query.Int64s arch r key d h
          = query.Slice r key d (λ s, strconv.ParseInt arch s 64) h
          ∧ result (query.Int64s arch r key d h)
            = Some (map (λ v, or_default d (strconv.ParseInt arch v 64))
                      (raw r key)))
  ∧ (∀ d, query.Float64s ParseFloat r key d h
          = query.Slice r key d ParseFloat h
          ∧ result (query.Float64s ParseFloat r key d h)
            = Some (map (λ v, or_default d (ParseFloat v)) (raw r key)))
  ∧ (∀ d, query.Bools TrimSpace ToLower r key d h
          = query.Slice r key d (query.parseBool TrimSpace ToLower) h
          ∧ result (query.Bools TrimSpace ToLower r key d h)
            = Some (map (λ v, or_default d
                                (query.parseBool TrimSpace ToLower v))
                      (raw r key))).
Proof.
  unfold query.Ints, query.Int64s, query.Float64s, query.Bools.
  refine (conj _ (conj _ (conj _ _))); intros d;
    (split; [reflexivity|by rewrite Slice_run]).
Qed.

(** ** Totality *)

(** C6. Every operation is total: whatever strings the request
    carries, every operation ends without a panic and returns a value
    of its result type; the error of a parser never leaves the
    operation. *)
Theorem extraction_total (r : Request) (key : string) (h : heap) :
  (∀ d, returns (query.String r key d) h)
  ∧ (∀ d, returns (query.Int arch r key d) h)
  ∧ (∀ d, returns (query.Int64 arch r key d) h)
  ∧ (∀ d, returns (query.Float64 ParseFloat r key d) h)
  ∧ (∀ d, returns (query.Bool TrimSpace ToLower r key d) h)
  ∧ returns (query.Strings r key) h
  ∧ (∀ (T : Type) (Z0 : GoZero T) (d : T) (parser : strconv.Parser T),
       returns (query.Slice r key d parser) h)
  ∧ (∀ d, returns (query.Ints arch r key d) h)
  ∧ (∀ d, returns (query.Int64s arch r key d) h)
  ∧ (∀ d, returns (query.Float64s ParseFloat r key d) h)
  ∧ (∀ d, returns (query.Bools TrimSpace ToLower r key d) h)
  ∧ returns (query.Has r key) h
  ∧ returns (query.Count r key) h
  ∧ returns (query.IsMultiple r key) h
  ∧ (∀ (T : Type) (xs : list T) (d : T), returns (query.First xs d) h)
  ∧ returns (query.All r) h.
Proof.
  unfold returns.
  repeat split; intros;
    try (eexists _, _;
         first [apply String_run | apply Int_run | apply Int64_run
               | apply Float64_run | apply Bool_run | apply Slice_run
               | apply Has_run | apply Count_run | apply IsMultiple_run
               | apply First_run]).
  - destruct (Strings_run r key h) as (s & Hs & _). by eexists _, _.
  - destruct (All_run r h) as (h' & Hr & _). by eexists _, _.
Qed.

(** ** Absent keys *)

(** C7. For a key absent from the multi-map of the request and every
    default: every scalar extractor returns the default, every sequence
    extractor returns the empty sequence, [Has] returns false, [Count]
    returns 0 and [IsMultiple] returns false. *)
Theorem absent_key (r : Request) (key : string) (h : heap) :
  values_of r !! key = None →
  (∀ d, result (query.String r key d h) = Some d)
  ∧ (∀ d, result (query.Int arch r key d h) = Some d)
  ∧ (∀ d, result (query.Int64 arch r key d h) = Some d)
  ∧ (∀ d, result (query.Float64 ParseFloat r key d h) = Some d)
  ∧ (∀ d, result (query.Bool TrimSpace ToLower r key d h) = Some d)
  ∧ returned_strings (query.Strings r key h) = Some []
  ∧ (∀ (T : Type) (Z0 : GoZero T) (d : T) (parser : strconv.Parser T),
       result (query.Slice r key d parser h) = Some [])
  ∧ (∀ d, result (query.Ints arch r key d h) = Some [])
  ∧ (∀ d, result (query.Int64s arch r key d h) = Some [])
  ∧ (∀ d, result (query.Float64s ParseFloat r key d h) = Some [])
  ∧ (∀ d, result (query.Bools TrimSpace ToLower r key d h) = Some [])
  ∧ result (query.Has r key h) = Some false
  ∧ result (query.Count r key h) = Some 0
  ∧ result (query.IsMultiple r key h) = Some false.
Proof.
  intros Habs.
  assert (Hraw : raw r key = []) by (by apply raw_absent).
  assert (Hfirst : first_raw r key = None) by (by apply first_raw_absent).
  unfold query.Ints, query.Int64s, query.Float64s, query.Bools.
  repeat split; intros;
    rewrite ?String_run, ?Int_run, ?Int64_run, ?Float64_run, ?Bool_run,
      ?Slice_run, ?Has_run, ?Count_run, ?IsMultiple_run;
    rewrite ?Hfirst, ?Hraw, ?Habs; try done.
  destruct (Strings_run r key h) as (s & -> & Hs). simpl.
  by rewrite Hs, Hraw.
Qed.

(** ** Numeric extraction *)

Lemma scalar_decimal (parser : strconv.Parser Z) (bits : Z) :
  (∀ s, match decimal_in bits s with
        | Some v => parser s = (v, None)
        | None => strconv.failed (parser s) = true
        end) →
  ∀ d first, scalar parser d first = default d (first ≫= decimal_in bits).
Proof.
  intros Hp d [s|]; simpl; [|done].
  specialize (Hp s). destruct (decide (s = "")) as [->|_]; [done|].
  unfold or_default. destruct (decimal_in bits s); by rewrite Hp.
Qed.

(** C8. For every base-10 literal whose value fits the target type,
    [Int] and [Int64] return exactly that value, negative values and
    zero included, and for every other first value, a literal out of
    the range of the type included, they return the default.  For
    every decimal numeral whose value is below the limit of float64,
    [Float64] returns a float64 with the sign of the numeral than which
    no float64 is nearer to the value of the numeral: the very value
    whenever it is a float64.  For a numeral from the limit on
    [Float64] returns the default, and so it does whenever the parser
    fails on the first value. *)
Theorem numeric_extraction (r : Request) (key : string) (h : heap) :
  (∀ d, result (query.Int arch r key d h)
        = Some (default d (first_raw r key ≫= decimal_in (IntSize arch))))
  ∧ (∀ d, result (query.Int64 arch r key d h)
          = Some (default d (first_raw r key ≫= decimal_in 64)))
  ∧ (∀ d s neg M E,
       first_raw r key = Some s → float_literal s = Some (neg, M, E) →
       ((Qscale M 10 E < float64_limit)%Q →
        ∃ m e,
          result (query.Float64 strconv.ParseFloat r key d h)
          = Some (strconv.float64 neg m e)
          ∧ binary64 m e
          ∧ (∀ m1 e1, binary64 m1 e1 →
               (Qabs (Qscale m 2 e - Qscale M 10 E)
                <= Qabs (Qscale m1 2 e1 - Qscale M 10 E))%Q)
          ∧ (∀ m1 e1, binary64 m1 e1 →
               (Qscale m1 2 e1 == Qscale M 10 E)%Q →
               (Qscale m 2 e == Qscale M 10 E)%Q))
       ∧ ((float64_limit <= Qscale M 10 E)%Q →
          result (query.Float64 strconv.ParseFloat r key d h) = Some d))
  ∧ (∀ d s, first_raw r key = Some s →
       strconv.failed (ParseFloat s) = true →
       result (query.Float64 ParseFloat r key d h) = Some d).
Proof.
  split; [|split; [|split]].
  - intros d. rewrite Int_run. simpl. f_equal.
    apply scalar_decimal, Atoi_spec.
  - intros d. rewrite Int64_run. simpl. f_equal.
    apply scalar_decimal. intros s. apply ParseInt_spec. by right.
  - intros d s neg M E Hfirst Hlit.
    assert (result (query.Float64 strconv.ParseFloat r key d h)
            = Some (or_default d (strconv.ParseFloat s))) as ->.
    { rewrite Float64_run, Hfirst. simpl.
      destruct (decide (s = "")) as [->|_]; [done|done]. }
    rewrite (ParseFloat_literal _ _ _ _ Hlit).
    pose proof (round64_nearest M 10 E
                  (float_literal_nonneg _ _ _ _ Hlit) ltac:(lia)) as Hr.
    cbn zeta in Hr.
    destruct (strconv.round64 M 10 E) as [[m e]|].
    + destruct Hr as (Hlt & Hb & Hnear). split.
      * intros _. exists m, e. split; [done|]. split; [done|].
        split; [done|]. intros m1 e1 Hb1 Heq.
        by apply (Qabs_nearest_exact _ _ _ (Hnear m1 e1 Hb1)).
      * intros Hge. by apply Qlt_not_le in Hlt.
    + split; [|done]. intros Hlt. by apply Qlt_not_le in Hlt.
  - intros d s Hfirst Hfail. rewrite Float64_run, Hfirst. simpl.
    destruct (decide (s = "")) as [->|_]; [done|].
    unfold or_default. by rewrite Hfail.
Qed.

(** ** Raw values *)

Lemma Strings_returned (r : Request) (key : string) (h : heap) :
  returned_strings (query.Strings r key h) = Some (raw r key).
Proof. by destruct (Strings_run r key h) as (s & -> & Hs). Qed.

(** C9. [Strings] returns exactly the raw values recorded for the key,
    in order and unmodified, and the empty sequence when the key is
    absent; a key that is present, be it with a single empty value,
    never yields the empty sequence. *)
Theorem Strings_verbatim (r : Request) (key : string) (h : heap) :
  returned_strings (query.Strings r key h)
  = Some (default [] (values_of r !! key))
  ∧ match values_of r !! key with
    | Some vs =>
        returned_strings (query.Strings r key h) = Some vs ∧ vs ≠ []
    | None => returned_strings (query.Strings r key h) = Some []
    end
  ∧ (returned_strings (query.Strings r key h) = Some []
     ↔ values_of r !! key = None).
Proof.
  rewrite Strings_returned. unfold raw. split; [done|]. split.
  - destruct (values_of r !! key) as [vs|] eqn:E; [|done].
    split; [done|]. by apply values_of_nonempty in E.
  - rewrite raw_absent. unfold raw. split; [by intros [= ->]|by intros ->].
Qed.

(** ** Scalars and sequences *)

Lemma scalar_head {T : Type} (parser : strconv.Parser T) (d : T)
    (vs : list string) :
  strconv.failed (parser "") = true →
  scalar parser d (head vs)
  = default d (head (map (λ v, or_default d (parser v)) vs)).
Proof.
  intros Hf. destruct vs as [|v vs]; simpl; [done|].
  destruct (decide (v = "")) as [->|_]; [|done].
  unfold or_default. by rewrite Hf.
Qed.

(** C10. Every parsed scalar extractor agrees with [First] of the
    corresponding sequence extractor under the same default:
    [Int] with [Ints], [Int64] with [Int64s], [Float64] with
    [Float64s], [Bool] with [Bools].  The library functions are taken
    as they behave on the empty string: [ParseFloat] rejects it, and
    trimming and lowercasing leave it empty. *)
Theorem scalar_is_First_of_slice (r : Request) (key : string) (h : heap) :
  strconv.failed (ParseFloat "") = true →
  ToLower (TrimSpace "") = "" →
  (∀ d, query.Int arch r key d h
        = (query.Ints arch r key d ≫= λ xs, query.First xs d) h)
  ∧ (∀ d, query.Int64 arch r key d h
          = (query.Int64s arch r key d ≫= λ xs, query.First xs d) h)
  ∧ (∀ d, query.Float64 ParseFloat r key d h
          = (query.Float64s ParseFloat r key d ≫= λ xs, query.First xs d) h)
  ∧ (∀ d, query.Bool TrimSpace ToLower r key d h
          = (query.Bools TrimSpace ToLower r key d
               ≫= λ xs, query.First xs d) h).
Proof.
  intros Hfloat Hempty.
  unfold query.Ints, query.Int64s, query.Float64s, query.Bools.
  refine (conj _ (conj _ (conj _ _))); intros d;
    rewrite ?Int_run, ?Int64_run, ?Float64_run, ?Bool_run;
    go_step; rewrite Slice_run, First_run; f_equal;
    apply scalar_head; try done; try (by destruct arch).
  unfold query.parseBool. by rewrite Hempty.
Qed.

(** ** The snapshot *)

Lemma All_returned (r : Request) (h : heap) :
  returned_values (query.All r h) = Some (values_of r).
Proof. by destruct (All_run r h) as (h' & -> & _ & _ & Hc). Qed.

(** C3. [All] returns a map with the content of the multi-map of the
    request, and whatever the caller then does to the returned map, or
    to anything else on the heap, changes the result of no later
    extraction on the same request. *)
Theorem All_snapshot (r : Request) (h : heap) :
  ∃ m h1,
    query.All r h = Ok m h1
    ∧ map_content h1 m = Some (values_of r)
    ∧ ∀ (mutate : heap → heap) (key : string),
        (∀ d, result (query.String r key d (mutate h1))
              = result (query.String r key d h1))
        ∧ (∀ d, result (query.Int arch r key d (mutate h1))
                = result (query.Int arch r key d h1))
        ∧ (∀ d, result (query.Int64 arch r key d (mutate h1))
                = result (query.Int64 arch r key d h1))
        ∧ (∀ d, result (query.Float64 ParseFloat r key d (mutate h1))
                = result (query.Float64 ParseFloat r key d h1))
        ∧ (∀ d, result (query.Bool TrimSpace ToLower r key d (mutate h1))
                = result (query.Bool TrimSpace ToLower r key d h1))
        ∧ returned_strings (query.Strings r key (mutate h1))
          = returned_strings (query.Strings r key h1)
        ∧ (∀ (T : Type) (Z0 : GoZero T) (d : T) (parser : strconv.Parser T),
             result (query.Slice r key d parser (mutate h1))
             = result (query.Slice r key d parser h1))
        ∧ (∀ d, result (query.Ints arch r key d (mutate h1))
                = result (query.Ints arch r key d h1))
        ∧ (∀ d, result (query.Int64s arch r key d (mutate h1))
                = result (query.Int64s arch r key d h1))
        ∧ (∀ d, result (query.Float64s ParseFloat r key d (mutate h1))
                = result (query.Float64s ParseFloat r key d h1))
        ∧ (∀ d, result (query.Bools TrimSpace ToLower r key d (mutate h1))
                = result (query.Bools TrimSpace ToLower r key d h1))
        ∧ result (query.Has r key (mutate h1)) = result (query.Has r key h1)
        ∧ result (query.Count r key (mutate h1))
          = result (query.Count r key h1)
        ∧ result (query.IsMultiple r key (mutate h1))
          = result (query.IsMultiple r key h1)
        ∧ returned_values (query.All r (mutate h1))
          = returned_values (query.All r h1).
Proof.
  destruct (All_run r h) as (h1 & Hrun & _ & _ & Hcontent).
  exists (Pos.succ (next h)), h1. split; [done|]. split; [done|].
  intros mutate key.
  unfold query.Ints, query.Int64s, query.Float64s, query.Bools.
  repeat split; intros;
    by rewrite ?String_run, ?Int_run, ?Int64_run, ?Float64_run, ?Bool_run,
      ?Slice_run, ?Has_run, ?Count_run, ?IsMultiple_run,
      ?Strings_returned, ?All_returned.
Qed.

End Claims.

(** * The claims at sample requests *)

Lemma absent_key_witness :
  values_of shop !! "offset" = None
  ∧ result (query.Int Arch64 shop "offset" 0 heap0) = Some 0.
Proof.
  split; [by vm_compute|].
  apply (absent_key Arch64 ascii_TrimSpace ascii_ToLower integral_ParseFloat
           shop "offset" heap0).
  by vm_compute.
Defined.

Lemma scalar_is_First_of_slice_witness :
  strconv.failed (integral_ParseFloat "") = true
  ∧ ascii_ToLower (ascii_TrimSpace "") = ""
  ∧ query.Int Arch64 ids "id" 0 heap0
    = (query.Ints Arch64 ids "id" 0 ≫= λ xs, query.First xs 0) heap0.
Proof.
  split; [reflexivity|]. split; [reflexivity|].
  apply (scalar_is_First_of_slice Arch64 ascii_TrimSpace ascii_ToLower
           integral_ParseFloat ids "id" heap0); reflexivity.
Defined.

Lemma numeric_extraction_witness :
  first_raw prices "price" = Some "19.99"
  ∧ float_literal "19.99" = Some (false, 1999, -2)
  ∧ (Qscale 1999 10 (-2) < float64_limit)%Q
  ∧ ∃ m e,
      result (query.Float64 strconv.ParseFloat prices "price" 0 heap0)
      = Some (strconv.float64 false m e)
      ∧ binary64 m e
      ∧ (∀ m1 e1, binary64 m1 e1 →
           (Qabs (Qscale m 2 e - Qscale 1999 10 (-2))
            <= Qabs (Qscale m1 2 e1 - Qscale 1999 10 (-2)))%Q)
      ∧ (∀ m1 e1, binary64 m1 e1 →
           (Qscale m1 2 e1 == Qscale 1999 10 (-2))%Q →
           (Qscale m 2 e == Qscale 1999 10 (-2))%Q).
Proof.
  split; [by vm_compute|]. split; [by vm_compute|].
  split; [by vm_compute|].
  destruct (numeric_extraction Arch64 integral_ParseFloat prices "price"
              heap0) as (_ & _ & Hfloat & _).
  apply (Hfloat 0%float "19.99" false 1999 (-2));
    by vm_compute.
Defined.

(** The scenarios of the specification (8). *)

Example scenario_shop :
  result (query.Int Arch64 shop "page" 1 heap0) = Some 2
  ∧ result (query.Int Arch64 shop "limit" 25 heap0) = Some 50
  ∧ result (query.Bool ascii_TrimSpace ascii_ToLower shop "active" false
              heap0) = Some true
  ∧ result (query.String shop "sort" "name" heap0) = Some "price"
  ∧ result (query.Int Arch64 shop "offset" 0 heap0) = Some 0.
Proof. by vm_compute. Qed.

Example scenario_ids :
  result (query.Ints Arch64 ids "id" 0 heap0) = Some [1; 2; 0; 5].
Proof. by vm_compute. Qed.

Example scenario_tags :
  returned_strings (query.Strings tags "tag" heap0) = Some [""; ""]
  ∧ result (query.Count tags "tag" heap0) = Some 2
  ∧ returned_strings (query.Strings tags "other" heap0) = Some []
  ∧ returned_strings (query.Strings limits "tag" heap0) = Some [""].
Proof. by vm_compute. Qed.

Example scenario_limits :
  result (query.Int64 Arch32 limits "small" 0 heap0) = Some (-9999999999)
  ∧ result (query.Int Arch32 limits "small" 7 heap0) = Some 7
  ∧ result (query.Int Arch32 limits "wide" 7 heap0) = Some 7
  ∧ result (query.Int Arch64 limits "wide" 7 heap0) = Some 2147483648
  ∧ result (query.Int64 Arch64 limits "huge" 7 heap0) = Some 7
  ∧ result (query.Int Arch64 limits "nul" 7 heap0) = Some 7
  ∧ result (query.Bool ascii_TrimSpace ascii_ToLower limits "flag" false
              heap0) = Some true.
Proof. by vm_compute. Qed.

(** The numerals of the specification (4.1, 7): [Float64] returns the
    float64 that the numeral denotes, zero with the sign of the
    numeral, and the default for a numeral beyond the range. *)
#[warnings="-inexact-float"]
Example scenario_prices :
  result (query.Float64 strconv.ParseFloat prices "price" 0 heap0)
  = Some 19.99%float
  ∧ result (query.Float64 strconv.ParseFloat prices "rate" 0 heap0)
    = Some 1.23e-4%float
  ∧ result (query.Float64 strconv.ParseFloat prices "half" 0 heap0)
    = Some (-0.5)%float
  ∧ result (query.Float64 strconv.ParseFloat prices "zero" 1 heap0)
    = Some (-0)%float
  ∧ result (query.Float64 strconv.ParseFloat prices "large" 7 heap0)
    = Some 7%float
  ∧ result (query.Float64 strconv.ParseFloat prices "word" 7 heap0)
    = Some 7%float
  ∧ result (query.Float64s strconv.ParseFloat prices "price" 0 heap0)
    = Some [19.99%float; 0%float; 5e-324%float].
Proof. by vm_compute. Qed.

(** The store through the returned map shows in the returned map and
    in no later extraction. *)
Example scenario_overwrite :
  result (overwrite_snapshot heap0)
  = Some (Some [("id", ["7"; "2"; "invalid"; "5"])], 1, [1; 2; 0; 5]).
Proof. by vm_compute. Qed.

(** * Further properties of the code *)

(** ** The multi-map in terms of the query string *)

Lemma ParseQuery_step_lookup (ps : list (string * string)) (key : string) :
  ∀ m : Values,
    foldl (λ (m : Values) kv,
             <[kv.1 := (default [] (m !! kv.1) ++ [kv.2])%list]> m) m ps
      !! key
    = match values_named key ps with
      | [] => m !! key
      | vs => Some (default [] (m !! key) ++ vs)%list
      end.
Proof.
  unfold values_named.
  induction ps as [|kv ps IH]; intros m;
    [rewrite filter_nil; simpl; reflexivity|].
  cbn [foldl]. rewrite IH. destruct (decide (kv.1 = key)) as [<-|Hne].
  - rewrite filter_cons_True by done. rewrite lookup_insert_eq, fmap_cons.
    destruct ((filter (λ kv0, kv0.1 = kv.1) ps).*2) as [|v vs]; [done|].
    cbn [from_option id]. by rewrite <- app_assoc.
  - rewrite filter_cons_False by done. by rewrite lookup_insert_ne.
Qed.

Lemma values_of_named (r : Request) (key : string) :
  values_of r !! key
  = match values_named key (params r) with
    | [] => None
    | vs => Some vs
    end.
Proof.
  unfold values_of, ParseQuery. rewrite ParseQuery_step_lookup.
  by destruct (values_named key (params r)).
Qed.

Lemma raw_named (r : Request) (key : string) :
  raw r key = values_named key (params r).
Proof.
  unfold raw. rewrite values_of_named.
  by destruct (values_named key (params r)).
Qed.

Lemma values_named_nil (key : string) (ps : list (string * string)) :
  values_named key ps = [] ↔ key ∉ ps.*1.
Proof.
  unfold values_named. induction ps as [|kv ps IH]; simpl.
  - split; [intros _; apply not_elem_of_nil|done].
  - rewrite not_elem_of_cons. destruct (decide (kv.1 = key)) as [<-|Hne].
    + rewrite filter_cons_True by done. simpl.
      split; [done|]. by intros [? _].
    + rewrite filter_cons_False by done. rewrite IH.
      split; [by intros ?; split|by intros [_ ?]].
Qed.

Lemma or_default_decimal (parser : strconv.Parser Z) (bits : Z) :
  (∀ s, match decimal_in bits s with
        | Some v => parser s = (v, None)
        | None => strconv.failed (parser s) = true
        end) →
  ∀ d s, or_default d (parser s) = default d (decimal_in bits s).
Proof.
  intros Hp d s. specialize (Hp s). unfold or_default.
  destruct (decimal_in bits s); by rewrite Hp.
Qed.

Section Further.

Variable arch : Arch.
Variables TrimSpace ToLower : string → string.
Variable ParseFloat : strconv.Parser float.

(** X1. With a non-empty default, [String] never returns the empty
    string: an empty first value is replaced by the default like a
    missing one. *)
Theorem String_never_empty (r : Request) (key d : string) (h : heap) :
  d ≠ "" →
  ∃ v h', query.String r key d h = Ok v h' ∧ v ≠ "".
Proof.
  intros Hd. rewrite String_run. eexists _, _. split; [done|].
  unfold scalar, or_default, verbatim. simpl.
  destruct (first_raw r key) as [s|]; [|done].
  by destruct (decide (s = "")).
Qed.

(** X2. [Has] is true exactly when [Count] is at least 1, and
    [IsMultiple] exactly when [Count] is at least 2; [Count] is never
    negative. *)
Theorem Has_Count_IsMultiple (r : Request) (key : string) (h : heap) :
  ∃ n : Z,
    result (query.Count r key h) = Some n
    ∧ 0 ≤ n
    ∧ result (query.Has r key h) = Some (bool_decide (1 ≤ n))
    ∧ result (query.IsMultiple r key h) = Some (bool_decide (2 ≤ n)).
Proof.
  rewrite Count_run, Has_run, IsMultiple_run. simpl.
  eexists. split; [done|]. split; [lia|]. split; f_equal.
  - unfold raw. destruct (values_of r !! key) as [vs|] eqn:E; simpl.
    + apply values_of_nonempty in E. destruct vs; [done|].
      symmetry. apply bool_decide_eq_true_2. cbn [length]. lia.
    + done.
  - apply bool_decide_ext. lia.
Qed.

(** X3. [Count] is the length of what [Strings] returns and of what
    [Slice] returns with any parser, and [Slice] with the parser that
    hands its input back returns the very strings of [Strings]. *)
Theorem Count_Strings_Slice (r : Request) (key : string) (h : heap) :
  ∃ (n : Z) (vs : list string),
    result (query.Count r key h) = Some n
    ∧ returned_strings (query.Strings r key h) = Some vs
    ∧ n = Z.of_nat (length vs)
    ∧ (∀ d, result (query.Slice r key d verbatim h) = Some vs)
    ∧ (∀ (T : Type) (Z0 : GoZero T) (d : T) (parser : strconv.Parser T),
         ∃ xs, result (query.Slice r key d parser h) = Some xs
               ∧ Z.of_nat (length xs) = n).
Proof.
  rewrite Count_run, Strings_returned. eexists _, _.
  split; [done|]. split; [done|]. split; [done|]. split.
  - intros d. rewrite Slice_run. simpl. f_equal.
    unfold or_default, verbatim. simpl. apply map_id.
  - intros T Z0 d parser. rewrite Slice_run. eexists. split; [done|].
    by rewrite length_map.
Qed.


(** X4. For a key with exactly one value, [Ints] returns the
    one-element sequence of what [Int] returns, and [Int64s] that of
    what [Int64] returns, under every default. *)
Theorem single_value_sequences (r : Request) (key v : string) (h : heap) :
  values_of r !! key = Some [v] →
  ∀ d, ∃ x y h',
    query.Int arch r key d h = Ok x h'
    ∧ query.Ints arch r key d h = Ok [x] h'
    ∧ query.Int64 arch r key d h = Ok y h'
    ∧ query.Int64s arch r key d h = Ok [y] h'.
Proof.
  intros Hv d. unfold query.Ints, query.Int64s.
  rewrite Int_run, Int64_run, !Slice_run.
  unfold first_raw, raw. rewrite Hv. simpl.
  eexists _, _, _. repeat split; do 2 f_equal.
  - destruct (decide (v = "")) as [->|_]; [by destruct arch|done].
  - destruct (decide (v = "")) as [->|_]; [by destruct arch|done].
Qed.

(** X5. On a 64-bit platform [Int] and [Int64] return the same
    number, and [Ints] and [Int64s] the same sequence; what [Int64]
    returns does not depend on the platform. *)
Theorem Int_agrees_with_Int64 (a : Arch) (r : Request) (key : string)
    (d : Z) (h : heap) :
  query.Int Arch64 r key d h = query.Int64 a r key d h
  ∧ query.Ints Arch64 r key d h = query.Int64s a r key d h.
Proof.
  unfold query.Ints, query.Int64s. rewrite Int_run, Int64_run, !Slice_run.
  split; f_equal.
  - rewrite (scalar_decimal _ 64 (Atoi_spec Arch64)).
    symmetry. apply scalar_decimal. intros s. apply ParseInt_spec. by right.
  - apply map_ext. intros s.
    rewrite (or_default_decimal _ 64 (Atoi_spec Arch64)).
    symmetry.
    apply (or_default_decimal (λ s, strconv.ParseInt a s 64) 64).
    intros s'. apply ParseInt_spec. by right.
Qed.

(** X6. An integer extractor never returns a number that wrapped
    around.  A value that is a base-10 literal is read with the number
    [v] it spells: [Ints] and [Int64s] put [v] in its place when [v]
    fits the type, and the default when it does not, never [v] reduced
    to the width of the type; [Int] and [Int64] do the same for the
    first value. *)
Theorem integers_never_wrap (r : Request) (key : string) (d : Z) (h : heap) :
  ∃ xs ys,
    result (query.Ints arch r key d h) = Some xs
    ∧ result (query.Int64s arch r key d h) = Some ys
    ∧ ∀ s v, decimal s = Some v →
        let x := if decide (in_range (IntSize arch) v) then v else d in
        let y := if decide (in_range 64 v) then v else d in
        (first_raw r key = Some s →
           result (query.Int arch r key d h) = Some x
           ∧ result (query.Int64 arch r key d h) = Some y)
        ∧ (∀ i, raw r key !! i = Some s →
             xs !! i = Some x ∧ ys !! i = Some y).
Proof.
  unfold query.Ints, query.Int64s. rewrite Int_run, Int64_run, !Slice_run.
  assert (H64 : ∀ s, match decimal_in 64 s with
                     | Some v => strconv.ParseInt arch s 64 = (v, None)
                     | None => strconv.failed (strconv.ParseInt arch s 64)
                               = true
                     end).
  { intros s. apply ParseInt_spec. by right. }
  eexists _, _. split; [done|]. split; [done|].
  intros s v Hv.
  assert (Hin : ∀ bits,
            default d (decimal_in bits s)
            = if decide (in_range bits v) then v else d).
  { intros bits. unfold decimal_in. rewrite Hv.
    by destruct (decide (in_range bits v)). }
  split.
  - intros Hfirst. simpl.
    rewrite (scalar_decimal _ _ (Atoi_spec arch)), (scalar_decimal _ _ H64).
    rewrite Hfirst. simpl. by rewrite !Hin.
  - intros i Hi. rewrite !list_lookup_fmap, Hi. simpl.
    rewrite (or_default_decimal _ _ (Atoi_spec arch)).
    rewrite (or_default_decimal (λ s, strconv.ParseInt arch s 64) _ H64).
    by rewrite !Hin.
Qed.

(** X7. [Strings] never returns the nil slice: for a missing key it
    returns an empty slice that is not nil. *)
Theorem Strings_never_nil (r : Request) (key : string) (h : heap) :
  ∃ s h', query.Strings r key h = Ok s h' ∧ is_nil s = false.
Proof.
  unfold query.Strings. go_step. unfold URL_Query.
  rewrite map_index_parse.
  destruct (values_of r !! key) as [vs|]; simpl; by eexists _, _.
Qed.

(** X8. In terms of the query string: [Strings] returns the values
    of the parameters named by the key in the order they appear,
    [Count] is their number, and [Has] is true exactly when some
    parameter has that name. *)
Theorem extraction_by_parameters (r : Request) (key : string) (h : heap) :
  returned_strings (query.Strings r key h)
  = Some (values_named key (params r))
  ∧ result (query.Count r key h)
    = Some (Z.of_nat (length (values_named key (params r))))
  ∧ result (query.Has r key h) = Some (bool_decide (key ∈ (params r).*1)).
Proof.
  rewrite Strings_returned, Count_run, Has_run, raw_named.
  split; [done|]. split; [done|]. simpl. f_equal.
  apply bool_decide_ext. rewrite values_of_named.
  pose proof (values_named_nil key (params r)) as Hnil.
  destruct (values_named key (params r)) as [|v vs].
  - split; [by intros [? ?]|]. intros Hin. by apply Hnil in Hin.
  - split; [|by eexists]. intros _.
    destruct (decide (key ∈ (params r).*1)) as [|Hn]; [done|].
    by apply Hnil in Hn.
Qed.


Lemma values_named_app (key : string) (ps1 ps2 : list (string * string)) :
  values_named key (ps1 ++ ps2)
  = (values_named key ps1 ++ values_named key ps2)%list.
Proof. unfold values_named. by rewrite filter_app, fmap_app. Qed.

Lemma values_named_skip (key k v : string) (ps : list (string * string)) :
  k ≠ key → values_named key ((k, v) :: ps) = values_named key ps.
Proof. intros Hk. unfold values_named. by rewrite filter_cons_False. Qed.

Lemma values_of_same (r1 r2 : Request) (key : string) :
  values_named key (params r1) = values_named key (params r2) →
  values_of r1 !! key = values_of r2 !! key.
Proof. intros Hv. by rewrite !values_of_named, Hv. Qed.

Lemma raw_same (r1 r2 : Request) (key : string) :
  values_named key (params r1) = values_named key (params r2) →
  raw r1 key = raw r2 key.
Proof. intros Hv. by rewrite !raw_named. Qed.

(** X9. Once a key has a value, parameters added at the end of the
    query string change the result of no scalar extractor for that
    key: the first occurrence decides. *)
Theorem later_values_ignored (r : Request) (key : string)
    (more : list (string * string)) (h : heap) :
  key ∈ (params r).*1 →
  (∀ d, result (query.String (Build_Request (params r ++ more)) key d h)
        = result (query.String r key d h))
  ∧ (∀ d, result (query.Int arch (Build_Request (params r ++ more)) key d h)
          = result (query.Int arch r key d h))
  ∧ (∀ d, result (query.Int64 arch (Build_Request (params r ++ more))
                    key d h)
          = result (query.Int64 arch r key d h))
  ∧ (∀ d, result (query.Float64 ParseFloat
                    (Build_Request (params r ++ more)) key d h)
          = result (query.Float64 ParseFloat r key d h))
  ∧ (∀ d, result (query.Bool TrimSpace ToLower
                    (Build_Request (params r ++ more)) key d h)
          = result (query.Bool TrimSpace ToLower r key d h)).
Proof.
  intros Hin.
  assert (Hfirst : first_raw (Build_Request (params r ++ more)) key
                   = first_raw r key).
  { unfold first_raw. rewrite !raw_named. simpl.
    rewrite values_named_app.
    destruct (values_named key (params r)) as [|v vs] eqn:E; [|done].
    by apply values_named_nil in E. }
  repeat split; intros d;
    by rewrite ?String_run, ?Int_run, ?Int64_run, ?Float64_run, ?Bool_run,
      Hfirst.
Qed.

(** X10. A parameter with another name, wherever it stands in the
    query string, changes the result of no extraction for the key. *)
Theorem other_keys_ignored (ps1 ps2 : list (string * string))
    (k v key : string) (h : heap) :
  k ≠ key →
  (∀ d, result (query.String (Build_Request (ps1 ++ (k, v) :: ps2)) key d h)
        = result (query.String (Build_Request (ps1 ++ ps2)) key d h))
  ∧ returned_strings
      (query.Strings (Build_Request (ps1 ++ (k, v) :: ps2)) key h)
    = returned_strings (query.Strings (Build_Request (ps1 ++ ps2)) key h)
  ∧ (∀ (T : Type) (Z0 : GoZero T) (d : T) (parser : strconv.Parser T),
       result (query.Slice (Build_Request (ps1 ++ (k, v) :: ps2)) key d
                 parser h)
       = result (query.Slice (Build_Request (ps1 ++ ps2)) key d parser h))
  ∧ result (query.Has (Build_Request (ps1 ++ (k, v) :: ps2)) key h)
    = result (query.Has (Build_Request (ps1 ++ ps2)) key h)
  ∧ result (query.Count (Build_Request (ps1 ++ (k, v) :: ps2)) key h)
    = result (query.Count (Build_Request (ps1 ++ ps2)) key h)
  ∧ result (query.IsMultiple (Build_Request (ps1 ++ (k, v) :: ps2)) key h)
    = result (query.IsMultiple (Build_Request (ps1 ++ ps2)) key h).
Proof.
  intros Hk.
  assert (Hn : values_named key
                 (params (Build_Request (ps1 ++ (k, v) :: ps2)))
               = values_named key (params (Build_Request (ps1 ++ ps2)))).
  { simpl. by rewrite !values_named_app, values_named_skip. }
  pose proof (raw_same _ _ _ Hn) as Hraw.
  pose proof (values_of_same _ _ _ Hn) as Hval.
  repeat split; intros;
    rewrite ?String_run, ?Strings_returned, ?Slice_run, ?Has_run,
      ?Count_run, ?IsMultiple_run; unfold first_raw;
    by rewrite ?Hraw, ?Hval.
Qed.

(** X11. The map of [All] agrees with the per-key functions: for
    every key, its entry is what [Strings] returns, it has an entry
    exactly when [Has] is true, the length of the entry is [Count], and
    [String] returns the first element of the entry unless that is
    missing or empty. *)
Theorem All_agrees_with_accessors (r : Request) (key : string)
    (h h' : heap) :
  ∃ vm : Values,
    returned_values (query.All r h) = Some vm
    ∧ returned_strings (query.Strings r key h')
      = Some (default [] (vm !! key))
    ∧ result (query.Has r key h') = Some (bool_decide (is_Some (vm !! key)))
    ∧ result (query.Count r key h')
      = Some (Z.of_nat (length (default [] (vm !! key))))
    ∧ ∀ d, result (query.String r key d h')
           = Some (match vm !! key with
                   | Some (v :: _) => if decide (v = "") then d else v
                   | _ => d
                   end).
Proof.
  exists (values_of r).
  rewrite All_returned, Strings_returned, Has_run, Count_run.
  repeat split. intros d. rewrite String_run. simpl. f_equal.
  unfold first_raw, raw.
  by destruct (values_of r !! key) as [[|v vs]|].
Qed.

End Further.

Lemma All_exact (r : Request) (h : heap) :
  query.All r h = Ok (Pos.succ (next h)) (with_copy r h).
Proof.
  unfold query.All. go_step. unfold URL_Query, map_make, map_range. simpl.
  assert (Hne : Pos.succ (next h) ≠ next h) by lia.
  rewrite lookup_insert_ne, lookup_insert_eq by done.
  erewrite store_loop;
    [|simpl; apply lookup_insert_eq|apply NoDup_fst_map_to_list].
  simpl. unfold with_copy.
  by rewrite list_to_map_to_list, (right_id_L ∅ (∪)), insert_insert_eq.
Qed.

Lemma slice_elems_at (r : Request) (n : loc) (h : heap) (key : string)
    (vs : list string) :
  arenas h !! n = Some (values_of r) →
  values_of r !! key = Some vs →
  slice_elems h (header n key vs) = Some vs.
Proof.
  intros Ha Hvs. unfold slice_elems. simpl. rewrite Ha. simpl.
  rewrite Hvs. simpl. rewrite decide_True by done. by rewrite firstn_all.
Qed.

(** A map that holds the headers of the parse with stamp [n] shows the
    multi-map of the request for as long as the arrays of that parse
    are what the parse wrote. *)
Lemma content_at (r : Request) (n m : loc) (h : heap) :
  maps h !! m
  = Some (map_imap (λ k vs, Some (header n k vs)) (values_of r)) →
  arenas h !! n = Some (values_of r) →
  map_content h m = Some (values_of r).
Proof.
  intros Hm Ha. unfold map_content. rewrite Hm.
  rewrite decide_True.
  - f_equal. apply map_eq. intros k.
    rewrite lookup_omap, map_lookup_imap.
    destruct (values_of r !! k) as [vs|] eqn:E; simpl; [|done].
    by apply (slice_elems_at r).
  - intros k s. rewrite map_lookup_imap.
    destruct (values_of r !! k) as [vs|] eqn:E; simpl; [|done].
    intros [= <-]. rewrite (slice_elems_at r) by done. by eexists.
Qed.

Lemma map_store_run (m : loc) (k : string) (v : slice) (h : heap)
    (gm : gmap string slice) :
  maps h !! m = Some gm →
  map_store m k v h
  = Ok () {| arenas := arenas h;
             maps := <[m := <[k := v]> gm]> (maps h);
             next := next h |}.
Proof. intros Hm. unfold map_store. by rewrite Hm. Qed.

Lemma map_index_run (m : loc) (k : string) (h : heap)
    (gm : gmap string slice) :
  maps h !! m = Some gm →
  map_index m k h
  = Ok (match gm !! k with
        | Some s => (s, true)
        | None => (nil_slice, false)
        end) h.
Proof. intros Hm. unfold map_index. rewrite Hm. by destruct (gm !! k). Qed.

(** X12. Two snapshots are independent: a second call of [All]
    returns another map and leaves the content of the first as it was,
    and neither a store into the first map nor a store through one of
    its slices changes the content of the second. *)
Theorem snapshots_independent (r r' : Request) (h : heap) :
  ∃ m1 h1 m2 h2,
    query.All r h = Ok m1 h1
    ∧ query.All r' h1 = Ok m2 h2
    ∧ m1 ≠ m2
    ∧ map_content h2 m1 = Some (values_of r)
    ∧ map_content h2 m2 = Some (values_of r')
    ∧ (∀ k v, ∃ h3,
         map_store m1 k v h2 = Ok () h3
         ∧ map_content h3 m2 = Some (values_of r'))
    ∧ (∀ k s i v h3,
         map_index m1 k h2 = Ok (s, true) h2 →
         slice_store s i v h2 = Ok () h3 →
         map_content h3 m2 = Some (values_of r')).
Proof.
  eexists _, _, _, _. split; [apply All_exact|]. split; [apply All_exact|].
  change (next (with_copy r h)) with (Pos.succ (Pos.succ (next h))).
  set (n := next h). set (n' := Pos.succ (Pos.succ n)).
  split; [lia|].
  assert (Hm1 : maps (with_copy r' (with_copy r h)) !! Pos.succ n
                = Some (map_imap (λ k vs, Some (header n k vs))
                          (values_of r))).
  { cbn [with_copy maps next]. fold n n'.
    rewrite !lookup_insert_ne by lia. apply lookup_insert_eq. }
  assert (Ha1 : arenas (with_copy r' (with_copy r h)) !! n
                = Some (values_of r)).
  { cbn [with_copy arenas next]. fold n n'.
    rewrite lookup_insert_ne by lia. apply lookup_insert_eq. }
  assert (Hm2 : maps (with_copy r' (with_copy r h)) !! Pos.succ n'
                = Some (map_imap (λ k vs, Some (header n' k vs))
                          (values_of r'))).
  { cbn [with_copy maps next]. fold n n'. apply lookup_insert_eq. }
  assert (Ha2 : arenas (with_copy r' (with_copy r h)) !! n'
                = Some (values_of r')).
  { cbn [with_copy arenas next]. fold n n'. apply lookup_insert_eq. }
  split; [by apply (content_at r n)|].
  split; [by apply (content_at r' n')|].
  split.
  - intros k v. rewrite (map_store_run _ _ _ _ _ Hm1).
    eexists. split; [done|].
    apply (content_at r' n'); cbn [maps arenas]; [|done].
    by rewrite lookup_insert_ne by lia.
  - intros k s i v h3. rewrite (map_index_run _ _ _ _ Hm1).
    rewrite map_lookup_imap.
    destruct (values_of r !! k) as [vs|] eqn:E; simpl; [|done].
    intros [= <-]. unfold slice_store. cbn [len base header].
    destruct (decide (i < length vs)%nat); [|done].
    rewrite Ha1, E. intros [= <-].
    apply (content_at r' n'); cbn [maps arenas]; [done|].
    by rewrite lookup_insert_ne by lia.
Qed.

(** ** The slice of [Strings] *)

(** X16. The slice that [Strings] returns belongs to the caller: a
    store through it shows in that slice and changes nothing of what a
    later call of [Strings] on the same request returns. *)
Theorem Strings_result_is_private (r : Request) (key : string) (h : heap) :
  ∃ s h1 vs,
    query.Strings r key h = Ok s h1
    ∧ slice_elems h1 s = Some vs
    ∧ ∀ i v h2,
        slice_store s i v h1 = Ok () h2 →
        slice_elems h2 s = Some (<[i := v]> vs)
        ∧ returned_strings (query.Strings r key h2) = Some vs.
Proof.
  pose proof (Strings_returned r key) as Hr. unfold raw in Hr.
  unfold query.Strings. go_step. unfold URL_Query.
  rewrite map_index_parse.
  destruct (values_of r !! key) as [vs|] eqn:E; simpl; simpl in Hr.
  - exists (header (next h) key vs), (with_parse r h), vs.
    split; [done|]. split; [by apply slice_elems_parse|].
    intros i v h2. unfold slice_store. cbn [len base header].
    destruct (decide (i < length vs)%nat); [|done].
    cbn [with_parse arenas]. rewrite lookup_insert_eq, E.
    intros [= <-]. split.
    + unfold slice_elems. cbn [base header arenas len].
      rewrite lookup_insert_eq. simpl. rewrite lookup_insert_eq. simpl.
      rewrite decide_True by (by rewrite length_insert).
      f_equal. rewrite <- (length_insert vs i v). apply firstn_all.
    + apply Hr.
  - exists empty_slice, (with_parse r h), []. split; [done|]. split; [done|].
    intros i v h2. unfold slice_store. simpl. done.
Qed.

(** ** The table of header names *)

(** X13. No two header constants have the same value, and no two
    differ only in the case of their letters, which is how HTTP
    compares header names. *)
Theorem header_names_distinct :
  NoDup headers.all_headers
  ∧ NoDup (ascii_ToLower <$> headers.all_headers).
Proof. split; apply (bool_decide_unpack _); by vm_compute. Qed.

(** X14. Every header constant is a non-empty string of letters,
    digits and hyphens. *)
Theorem header_names_are_tokens :
  Forall (λ name, is_token name = true) headers.all_headers.
Proof. apply (bool_decide_unpack _). by vm_compute. Qed.

(** X15. The methods of one group return pairwise different names,
    and every name a method returns is the value of a constant of the
    block. *)
Theorem grouped_names :
  Forall (λ group, NoDup group
                   ∧ Forall (λ name, name ∈ headers.all_headers) group)
    headers.grouped.
Proof. apply (bool_decide_unpack _). by vm_compute. Qed.

(** ** The further properties at sample requests *)

Lemma String_never_empty_witness :
  "name" ≠ ""
  ∧ ∃ v h', query.String shop "sort" "name" heap0 = Ok v h' ∧ v ≠ "".
Proof.
  split; [done|].
  apply (String_never_empty shop "sort" "name" heap0). done.
Defined.

Lemma single_value_sequences_witness :
  values_of shop !! "page" = Some ["2"]
  ∧ ∀ d, ∃ x y h',
      query.Int Arch64 shop "page" d heap0 = Ok x h'
      ∧ query.Ints Arch64 shop "page" d heap0 = Ok [x] h'
      ∧ query.Int64 Arch64 shop "page" d heap0 = Ok y h'
      ∧ query.Int64s Arch64 shop "page" d heap0 = Ok [y] h'.
Proof.
  split; [by vm_compute|].
  apply (single_value_sequences Arch64 shop "page" "2" heap0).
  by vm_compute.
Defined.

Lemma later_values_ignored_witness :
  "page" ∈ (params shop).*1
  ∧ ∀ d,
      result (query.Int Arch64
                (Build_Request (params shop ++ [("page", "9")])) "page" d
                heap0)
      = result (query.Int Arch64 shop "page" d heap0).
Proof.
  split; [apply (bool_decide_unpack _); by vm_compute|].
  apply (later_values_ignored Arch64 ascii_TrimSpace ascii_ToLower
           integral_ParseFloat shop "page" [("page", "9")] heap0).
  apply (bool_decide_unpack _). by vm_compute.
Defined.

Lemma other_keys_ignored_witness :
  "limit" ≠ "page"
  ∧ result (query.Count
              (Build_Request ([("page", "2")] ++ ("limit", "50") :: []))
              "page" heap0)
    = result (query.Count (Build_Request ([("page", "2")] ++ [])) "page"
                heap0).
Proof.
  split; [done|].
  apply (other_keys_ignored [("page", "2")] [] "limit" "50" "page" heap0).
  done.
Defined.
